(** * Inventory store of the locking example: optimistic update and locked purchase

    Shallow embedding of [ProductsService] (create, findAll, findOne, update),
    of the [Product] entity and of the two DTOs, over an explicit model of the
    ORM repository the service is injected with and of the table behind it.
    Asynchronous methods become computations in a state-and-exception monad
    over the repository; a rejected promise is an exception value. *)

From Stdlib Require Import ZArith Lia.
From stdpp Require Import base gmap strings list.

Open Scope Z_scope.

(** ** Data model *)

(** Value of a [price] property at run time.  The class types it [number],
    and a client that builds the body itself sends a JSON number; the
    database driver hands a [numeric] column back as text, so an entity read
    from the table, and a body built from what the API returned (as the demo
    script does), carries the text of a number with two decimals.  Other
    texts are outside the model. *)
Inductive Price : Type :=
  | PriceNumber (m : Z) (e : nat)   (* the finite number m / 10^e *)
  | PriceText (c : Z).              (* the text of c / 100 with two decimals *)

(** [Product] entity.  [stock], [version] and [id] are integers, timestamps
    are instants on an integer clock, and a name is a string of one-byte
    characters, so that its length is its number of characters. *)
Module Product.
Record t : Type := mk {
  id : Z;          (* @PrimaryGeneratedColumn *)
  name : string;   (* @Column varchar, length 255 *)
  price : Price;   (* @Column numeric, precision 12, scale 2 *)
  stock : Z;       (* @Column int *)
  version : Z;     (* @VersionColumn *)
  createdAt : Z;   (* @CreateDateColumn *)
  updatedAt : Z    (* @UpdateDateColumn *)
}.
End Product.

(** Modelled from the spec: [CreateProductDto], the body of [POST /products],
    whose class is imported by the service but is not in the source.  It has
    the three inputs of create, which are the fields the demo script sends;
    like [UpdateProductDto] it is plain data. *)
Module CreateProductDto.
Record t : Type := mk {
  name : string;
  price : Price;
  stock : Z
}.
End CreateProductDto.

(** Body of [PUT /products/:id]; the class carries no validation rule. *)
Module UpdateProductDto.
Record t : Type := mk {
  name : string;
  price : Price;
  stock : Z;
  version : Z   (* client must provide current version *)
}.
End UpdateProductDto.

(** What a call can reject with: the exceptions the service throws, with
    their messages, and the error of the ORM for a statement the database
    refuses, which the service does not catch. *)
Inductive ServiceError : Type :=
  | NotFoundException (msg : string)
  | ConflictException (msg : string)
  | BadRequestException (msg : string)
  | QueryFailedError.

(** Error taxonomy of the store interface, and the database error that is
    outside it. *)
Inductive ErrorKind : Type :=
  | ValidationError
  | NotFoundError
  | ConflictError
  | DatabaseError.

Definition kind_of (e : ServiceError) : ErrorKind :=
  match e with
  | NotFoundException _ => NotFoundError
  | ConflictException _ => ConflictError
  | BadRequestException _ => ValidationError
  | QueryFailedError => DatabaseError
  end.

(** ** Column types *)

(** Range of an [int] column; the generated key and [stock] have it. *)
Definition int_min : Z := -2147483648.
Definition int_max : Z := 2147483647.

Definition in_int (n : Z) : bool := (int_min <=? n) && (n <=? int_max).

(** [n / d] rounded to the nearest integer, halves away from zero, as the
    database rounds a [numeric] to its scale ([0 < d]). *)
Definition round_half_away (n d : Z) : Z :=
  Z.sgn n * ((2 * Z.abs n + d) / (2 * d)).

(** The value a price is stored as, in hundredths: a number is rounded to two
    decimals, a text with two decimals is that value. *)
Definition hundredths (p : Price) : Z :=
  match p with
  | PriceNumber m e => round_half_away (m * 100) (10 ^ Z.of_nat e)
  | PriceText c => c
  end.

(** [varchar(255)]. *)
Definition name_fits (n : string) : bool := (String.length n <=? 255)%nat.

(** [numeric(12,2)]: at most ten digits before the point once rounded. *)
Definition price_fits (p : Price) : bool := Z.abs (hundredths p) <? 10 ^ 12.

(** The three values of a body fit their columns. *)
Definition fits_columns (n : string) (pr : Price) (st : Z) : bool :=
  name_fits n && price_fits pr && in_int st.

(** Strict equality of two price values, as the ORM compares the value of an
    instance with the value read from the row: texts are equal when they are
    the same text, numbers when they are the same number, and a number is
    never equal to a text. *)
Definition price_same (a b : Price) : bool :=
  match a, b with
  | PriceText c, PriceText c0 => c =? c0
  | PriceNumber m e, PriceNumber m0 e0 =>
      m * 10 ^ Z.of_nat e0 =? m0 * 10 ^ Z.of_nat e
  | _, _ => false
  end.

(** ** The repository *)

(** Table [products] keyed by id, with the sequence behind the generated
    primary key.  A row is kept as the entity the ORM reads from it; its
    price is the text of the stored value. *)
Record Repository : Type := mkRepository {
  rows : gmap Z Product.t;
  next_id : Z
}.

Definition empty_repository : Repository :=
  {| rows := ∅; next_id := 1 |}.

(** What [save] receives: an instance built by [repo.create] from a DTO, which
    has no id yet, or an instance loaded from the table (and possibly
    merged). *)
Inductive Entity : Type :=
  | Fresh (dto : CreateProductDto.t)
  | Loaded (p : Product.t).

(** Version given to a row by its INSERT. *)
Definition initial_version : Z := 1.

(** Settled promise. *)
Inductive Outcome (A : Type) : Type :=
  | Resolved (a : A)
  | Rejected (e : ServiceError).
Arguments Resolved {A} a.
Arguments Rejected {A} e.

(** An asynchronous method: from a repository state to a settled promise and
    the repository state it leaves. *)
Definition Async (A : Type) : Type := Repository -> Outcome A * Repository.

(** The entity as the table keeps it: the price is stored rounded to two
    decimals and read back as text. *)
Definition stored_form (p : Product.t) : Product.t :=
  {| Product.id := Product.id p;
     Product.name := Product.name p;
     Product.price := PriceText (hundredths (Product.price p));
     Product.stock := Product.stock p;
     Product.version := Product.version p;
     Product.createdAt := Product.createdAt p;
     Product.updatedAt := Product.updatedAt p |}.

Module Repo.

(** [repo.create(dto)]: a new instance carrying the DTO's properties. *)
Definition create (dto : CreateProductDto.t) : Entity := Fresh dto.

(** [repo.findOne({ where: { id } })]: the row stored under the id; for an
    id under which nothing is stored, null when the id is a value of the key
    column's type, and a refused query when it is not.  Rows are only ever
    stored under values of that type, so on every repository that can arise
    this is the query that checks its parameter against the key column
    before it looks for the row. *)
Definition findOne (i : Z) : Async (option Product.t) :=
  fun r =>
    match rows r !! i with
    | Some p => (Resolved (Some p), r)
    | None =>
        if in_int i then (Resolved None, r) else (Rejected QueryFailedError, r)
    end.

(** [repo.find()]: all rows, in the order the table enumerates them. *)
Definition find (r : Repository) : list Product.t :=
  (map_to_list (rows r)).*2.

(** [repo.merge(existing, { name, price, stock })]: the three properties
    are copied onto the loaded instance, the others are kept. *)
Definition merge (existing : Product.t) (n : string) (pr : Price) (st : Z) : Entity :=
  Loaded {| Product.id := Product.id existing;
            Product.name := n;
            Product.price := pr;
            Product.stock := st;
            Product.version := Product.version existing;
            Product.createdAt := Product.createdAt existing;
            Product.updatedAt := Product.updatedAt existing |}.

(** INSERT of the three plain columns at instant [now].  The database
    refuses values that do not fit their columns, and an exhausted key
    sequence; nothing is stored then.  Otherwise the row takes the next id
    of the sequence, the initial version and [now] for both dates, and the
    price is stored rounded.  The instance returned has the generated
    columns filled in and keeps the price it was given. *)
Definition insert (now : Z) (n : string) (pr : Price) (st : Z) : Async Product.t :=
  fun r =>
    if fits_columns n pr st && (next_id r <=? int_max)
    then
      let p := {| Product.id := next_id r;
                  Product.name := n;
                  Product.price := pr;
                  Product.stock := st;
                  Product.version := initial_version;
                  Product.createdAt := now;
                  Product.updatedAt := now |} in
      (Resolved p,
       {| rows := <[next_id r := stored_form p]> (rows r);
          next_id := next_id r + 1 |})
    else (Rejected QueryFailedError, r).

(** Some plain column of instance [p] differs from the row [old] read from
    the table. *)
Definition changes (p old : Product.t) : bool :=
  negb (String.eqb (Product.name p) (Product.name old))
  || negb (price_same (Product.price p) (Product.price old))
  || negb (Product.stock p =? Product.stock old).

(** Every column of [p] that differs from [old] holds a value that fits
    it. *)
Definition accepted (p old : Product.t) : bool :=
  (String.eqb (Product.name p) (Product.name old) || name_fits (Product.name p))
  && (price_same (Product.price p) (Product.price old)
      || price_fits (Product.price p))
  && ((Product.stock p =? Product.stock old) || in_int (Product.stock p)).

(** Instance [p] after the UPDATE over row [old] at instant [now]: the
    version and the update date are reloaded from the row, which has the
    stored version plus one and [now]; id and creation date are not part of
    the statement. *)
Definition updated (now : Z) (old p : Product.t) : Product.t :=
  {| Product.id := Product.id old;
     Product.name := Product.name p;
     Product.price := Product.price p;
     Product.stock := Product.stock p;
     Product.version := Product.version old + 1;
     Product.createdAt := Product.createdAt old;
     Product.updatedAt := now |}.

(** [repo.save(entity)].  An instance without id is inserted.  For an
    instance with an id the row is read again: when no plain column of the
    instance differs from it, no statement is issued and the instance is
    returned as it is; otherwise the differing columns are written by an
    UPDATE, which the database refuses when one of them does not fit; when
    no row has the id, the instance is inserted under a new id.  The version
    counter itself is taken as unbounded. *)
Definition save (now : Z) (e : Entity) : Async Product.t :=
  fun r =>
    match e with
    | Fresh dto =>
        insert now (CreateProductDto.name dto) (CreateProductDto.price dto)
          (CreateProductDto.stock dto) r
    | Loaded p =>
        match rows r !! Product.id p with
        | Some old =>
            if negb (changes p old) then (Resolved p, r)
            else if accepted p old
            then
              let p' := updated now old p in
              (Resolved p',
               {| rows := <[Product.id p := stored_form p']> (rows r);
                  next_id := next_id r |})
            else (Rejected QueryFailedError, r)
        | None =>
            insert now (Product.name p) (Product.price p) (Product.stock p) r
        end
    end.

End Repo.

(** ** The service monad *)

Definition ret {A} (a : A) : Async A := fun r => (Resolved a, r).

Definition throw {A} (e : ServiceError) : Async A := fun r => (Rejected e, r).

Definition bind {A B} (m : Async A) (k : A -> Async B) : Async B :=
  fun r =>
    match m r with
    | (Resolved a, r') => k a r'
    | (Rejected e, r') => (Rejected e, r')
    end.

(** A query that cannot fail: reads the repository, leaves it as it is. *)
Definition query {A} (f : Repository -> A) : Async A := fun r => (Resolved (f r), r).

Declare Scope async_scope.
Delimit Scope async_scope with async.
Notation "x <- m ;; k" := (bind m (fun x => k))
  (at level 100, m at next level, right associativity) : async_scope.
Open Scope async_scope.

(** ** ProductsService *)

Module ProductsService.

(** [create(dto)]: build an instance from the DTO and save it. *)
Definition create (now : Z) (dto : CreateProductDto.t) : Async Product.t :=
  let entity := Repo.create dto in
  Repo.save now entity.

(** [findAll()]. *)
Definition findAll : Async (list Product.t) :=
  query Repo.find.

(** [findOne(id)]. *)
Definition findOne (i : Z) : Async Product.t :=
  entity <- Repo.findOne i ;;
  match entity with
  | None => throw (NotFoundException "Product not found")
  | Some entity => ret entity
  end.

(** [update(id, dto)]: the optimistic update. *)
Definition update (now : Z) (i : Z) (dto : UpdateProductDto.t) : Async Product.t :=
  existing <- Repo.findOne i ;;
  match existing with
  | None => throw (NotFoundException "Product not found")
  | Some existing =>
      if negb (UpdateProductDto.version dto =? Product.version existing)
      then throw (ConflictException "Optimistic lock conflict: stale version")
      else
        let entity := Repo.merge existing
                        (UpdateProductDto.name dto)
                        (UpdateProductDto.price dto)
                        (UpdateProductDto.stock dto) in
        Repo.save now entity
  end.

End ProductsService.

(** ** The purchase operation *)

Module InventoryStore.

(** Modelled from the spec: [purchase(id, quantity)], the handler behind
    [POST /products/:id/purchase], which is not among the methods of
    [ProductsService] above.  The quantity is validated first; the row is
    then read under its exclusive lock; an unknown id is reported; stock
    below the quantity is a conflict that leaves the row alone; otherwise
    the decremented row is saved, which increments the version and
    refreshes the update date.  The whole body runs inside one transaction
    holding the lock, which is why it is one step of the store here. *)
Definition purchase (now : Z) (i : Z) (quantity : Z) : Async Product.t :=
  if quantity <=? 0
  then throw (BadRequestException "quantity must be a positive integer")
  else
    existing <- Repo.findOne i ;;
    match existing with
    | None => throw (NotFoundException "Product not found")
    | Some existing =>
        if Product.stock existing <? quantity
        then throw (ConflictException "insufficient stock")
        else
          let entity := Repo.merge existing
                          (Product.name existing)
                          (Product.price existing)
                          (Product.stock existing - quantity) in
          Repo.save now entity
    end.

End InventoryStore.

(** ** Histories of the store *)

(** One call on the store, with the instant at which its statement runs. *)
Inductive Op : Type :=
  | OpCreate (now : Z) (dto : CreateProductDto.t)
  | OpUpdate (now : Z) (i : Z) (dto : UpdateProductDto.t)
  | OpPurchase (now : Z) (i : Z) (quantity : Z).

(** The repository a call leaves, whether the call resolves or rejects. *)
Definition run_op (r : Repository) (o : Op) : Repository :=
  match o with
  | OpCreate now dto => (ProductsService.create now dto r).2
  | OpUpdate now i dto => (ProductsService.update now i dto r).2
  | OpPurchase now i q => (InventoryStore.purchase now i q r).2
  end.

Definition run_ops (ops : list Op) (r : Repository) : Repository :=
  fold_left run_op ops r.

(** A repository state is reachable when some history of calls leads to it
    from the empty table. *)
Definition reachable (r : Repository) : Prop :=
  ∃ ops, r = run_ops ops empty_repository.

(** Stock supplied by a call, when the call supplies one. *)
Definition supplied_stock (o : Op) : option Z :=
  match o with
  | OpCreate _ dto => Some (CreateProductDto.stock dto)
  | OpUpdate _ _ dto => Some (UpdateProductDto.stock dto)
  | OpPurchase _ _ _ => None
  end.

(** Every stock a history supplies is non-negative. *)
Definition supplies_nonneg (o : Op) : bool :=
  match supplied_stock o with
  | Some s => 0 <=? s
  | None => true
  end.

(** Every row has non-negative stock. *)
Definition stock_nonneg (r : Repository) : Prop :=
  ∀ i p, rows r !! i = Some p → 0 ≤ Product.stock p.

(** Rows are stored under their own id, and ids handed out so far are below
    the next value of the sequence. *)
(** A row as the table can hold it under id [i]: it carries that id, its
    name and stock fit their columns, and its price is the text of a value
    the column can hold. *)
Definition row_ok (i : Z) (p : Product.t) : Prop :=
  Product.id p = i
  ∧ name_fits (Product.name p) = true
  ∧ (∃ c, Product.price p = PriceText c ∧ Z.abs c < 10 ^ 12)
  ∧ in_int (Product.stock p) = true.

(** Every row is one the table can hold, ids handed out so far are below the
    next value of the sequence, and the sequence has not passed the end of
    the key column's range by more than one. *)
Definition well_formed (r : Repository) : Prop :=
  0 < next_id r ≤ int_max + 1 ∧
  ∀ i p, rows r !! i = Some p → row_ok i p ∧ 0 < i < next_id r.

(** ** Concurrent purchases against one row *)

Module LockedPurchase.

(** Modelled from the spec: the transaction of [purchase], cut into the
    steps at which concurrent calls can interleave.  A call validates its
    quantity, waits for the exclusive lock of the row, reads the stock it
    holds under the lock, and either rolls back (insufficient stock) or
    writes the stock it read minus its quantity and commits; rollback and
    commit release the lock.  The decremented value is computed from the
    stock the call read, not from the row at the time of the write. *)
Inductive Call : Type :=
  | Pending (q : Z)            (* request received *)
  | Acquired (q : Z)           (* transaction open, row lock held *)
  | Read (q : Z) (seen : Z)    (* stock read under the lock *)
  | Written (q : Z)            (* decrement written, not committed *)
  | Succeeded (q : Z)          (* committed, lock released *)
  | Failed (q : Z) (e : ErrorKind).

Definition quantity (c : Call) : Z :=
  match c with
  | Pending q | Acquired q | Read q _ | Written q | Succeeded q | Failed q _ => q
  end.

(** The row every call addresses, the holder of its lock, and the calls. *)
Record State : Type := mkState {
  stock : Z;
  version : Z;
  lock : option nat;
  calls : list Call
}.

Definition init (S V : Z) (qs : list Z) : State :=
  {| stock := S; version := V; lock := None; calls := Pending <$> qs |}.

Definition set_call (i : nat) (c : Call) (st : State) : State :=
  {| stock := stock st; version := version st; lock := lock st;
     calls := <[i := c]> (calls st) |}.

(** Modelled from the spec: one step of call [i] of the locked transaction;
    [None] when the call is settled, waits for the lock, or does not
    exist. *)
Definition step (i : nat) (st : State) : option State :=
  match calls st !! i with
  | Some (Pending q) =>
      if q <=? 0 then Some (set_call i (Failed q ValidationError) st)
      else match lock st with
           | None =>
               Some {| stock := stock st; version := version st;
                       lock := Some i;
                       calls := <[i := Acquired q]> (calls st) |}
           | Some _ => None
           end
  | Some (Acquired q) => Some (set_call i (Read q (stock st)) st)
  | Some (Read q seen) =>
      if seen <? q
      then Some {| stock := stock st; version := version st;
                   lock := None;
                   calls := <[i := Failed q ConflictError]> (calls st) |}
      else Some {| stock := seen - q; version := version st + 1;
                   lock := lock st;
                   calls := <[i := Written q]> (calls st) |}
  | Some (Written q) =>
      Some {| stock := stock st; version := version st;
              lock := None;
              calls := <[i := Succeeded q]> (calls st) |}
  | Some (Succeeded _) | Some (Failed _ _) | None => None
  end.

(** A schedule names the call that is given the next turn; a turn given to
    a call that cannot move changes nothing. *)
Definition turn (st : State) (i : nat) : State :=
  default st (step i st).

Definition run (sched : list nat) (st : State) : State :=
  fold_left turn sched st.

Definition settled (c : Call) : bool :=
  match c with
  | Succeeded _ | Failed _ _ => true
  | _ => false
  end.

Definition all_settled (st : State) : bool := forallb settled (calls st).

Definition holds_lock (c : Call) : bool :=
  match c with
  | Acquired _ | Read _ _ | Written _ => true
  | _ => false
  end.

(** Sum of [f] over the calls. *)
Fixpoint total (f : Call → Z) (l : list Call) : Z :=
  match l with
  | [] => 0
  | c :: l => f c + total f l
  end.

(** Quantity of a call that committed. *)
Definition committed (c : Call) : Z :=
  match c with Succeeded q => q | _ => 0 end.

(** Quantity of a call whose decrement is in the row. *)
Definition applied (c : Call) : Z :=
  match c with Written q | Succeeded q => q | _ => 0 end.

Definition committed_one (c : Call) : Z :=
  match c with Succeeded _ => 1 | _ => 0 end.

Definition applied_one (c : Call) : Z :=
  match c with Written _ | Succeeded _ => 1 | _ => 0 end.

(** A call past validation. *)
Definition started (c : Call) : bool :=
  match c with
  | Acquired _ | Read _ _ | Written _ | Succeeded _ => true
  | _ => false
  end.

(** The serial schedule: each call in turn is given the four turns a
    purchase takes at most. *)
Definition serial (n : nat) : list nat :=
  flat_map (λ i, [i; i; i; i]) (seq 0 n).

(** What holds of every state the calls can reach from [init S V qs]. *)
Record invariant (S V : Z) (qs : list Z) (st : State) : Prop := mkInvariant {
  inv_quantities : quantity <$> calls st = qs;
  inv_stock : stock st = S - total applied (calls st);
  inv_version : version st = V + total applied_one (calls st);
  inv_nonneg : 0 ≤ stock st;
  inv_lock : ∀ i c, calls st !! i = Some c →
               (holds_lock c = true ↔ lock st = Some i);
  inv_read : ∀ i q seen, calls st !! i = Some (Read q seen) → seen = stock st;
  inv_started : ∀ i c, calls st !! i = Some c → started c = true → 0 < quantity c
}.

End LockedPurchase.


(** ** The demo scenario *)

(** The product the demo script creates, at instant 100: price 10, stock
    5. *)
Definition demo_dto : CreateProductDto.t :=
  CreateProductDto.mk "LockDemo" (PriceNumber 10 0) 5.

Definition demo_repository : Repository :=
  run_ops [OpCreate 100 demo_dto] empty_repository.

(** The row of the demo product. *)
Definition demo_product : Product.t :=
  Product.mk 1 "LockDemo" (PriceText 1000) 5 1 100 100.

(** A history on the demo product: a stale update, an accepted update, the
    two purchases of the demo, a purchase with a bad quantity. *)
Definition demo_history : list Op :=
  [ OpUpdate 200 1 (UpdateProductDto.mk "LockDemo" (PriceNumber 10 0) 5 0);
    OpUpdate 210 1 (UpdateProductDto.mk "LockDemo+" (PriceNumber 12 0) 5 1);
    OpPurchase 220 1 2;
    OpPurchase 230 1 4;
    OpPurchase 240 1 0;
    OpCreate 250 demo_dto ].

(** A history that ends with negative stock: creation, then an update that
    sends the current version and stock -1. *)
Definition negative_stock_history : list Op :=
  [ OpCreate 100 demo_dto;
    OpUpdate 200 1 (UpdateProductDto.mk "LockDemo" (PriceNumber 10 0) (-1) 1) ].

(** ** Writes along a history *)


#[global] Instance Price_eq_dec : EqDecision Price.
Proof. solve_decision. Defined.

#[global] Instance Product_eq_dec : EqDecision Product.t.
Proof. solve_decision. Defined.

(** Call [o], run on [r], changes the row stored under id [i]. *)
Definition writes_row (i : Z) (r : Repository) (o : Op) : bool :=
  bool_decide (rows (run_op r o) !! i ≠ rows r !! i).

(** Number of calls of a history that change the row stored under id [i]. *)
Fixpoint writes (i : Z) (ops : list Op) (r : Repository) : Z :=
  match ops with
  | [] => 0
  | o :: ops => (if writes_row i r o then 1 else 0) + writes i ops (run_op r o)
  end.

(** The body of an update repeats what is stored in row [p]: same name, same
    price text, same stock. *)
Definition sends_stored (dto : UpdateProductDto.t) (p : Product.t) : bool :=
  String.eqb (UpdateProductDto.name dto) (Product.name p)
  && price_same (UpdateProductDto.price dto) (Product.price p)
  && (UpdateProductDto.stock dto =? Product.stock p).

(** The instance [update] hands to [save]: the row it read, with the name,
    price and stock of the body merged in. *)
Definition updating (dto : UpdateProductDto.t) (existing : Product.t) : Product.t :=
  {| Product.id := Product.id existing;
     Product.name := UpdateProductDto.name dto;
     Product.price := UpdateProductDto.price dto;
     Product.stock := UpdateProductDto.stock dto;
     Product.version := Product.version existing;
     Product.createdAt := Product.createdAt existing;
     Product.updatedAt := Product.updatedAt existing |}.

(** Every stored version is at least the initial one. *)
Definition versions_from_initial (r : Repository) : Prop :=
  ∀ i p, rows r !! i = Some p → initial_version ≤ Product.version p.

(** ** Settled calls of the locked purchase *)

(** What the way a call settled says about its quantity and the stock: a
    committed quantity is positive, a validation failure has a quantity that
    is not positive, a conflict has a quantity above the stock; a purchase
    of the one row never reports an unknown id or a refused statement. *)
Definition justified (st : LockedPurchase.State) (c : LockedPurchase.Call) : Prop :=
  match c with
  | LockedPurchase.Succeeded q => 0 < q
  | LockedPurchase.Failed q ValidationError => q ≤ 0
  | LockedPurchase.Failed q ConflictError => LockedPurchase.stock st < q
  | LockedPurchase.Failed q NotFoundError => False
  | LockedPurchase.Failed q DatabaseError => False
  | _ => True
  end.

(** ** The demo script *)

Module Demo.

(** [Product] as the script types the API's answers: the version may be
    absent. *)
Record Product : Type := mk {
  id : Z;
  name : string;
  price : Price;
  stock : Z;
  version : option Z
}.

(** The answer of [GET /products/:id] for a stored row, read at the script's
    type. *)
Definition of_entity (p : Product.t) : Product :=
  {| id := Product.id p;
     name := Product.name p;
     price := Product.price p;
     stock := Product.stock p;
     version := Some (Product.version p) |}.

(** [(fresh.version ?? 1) - 1] of [main]. *)
Definition staleVersion (fresh : Product) : Z :=
  default 1 (version fresh) - 1.

(** Step 2 of [main]: [optimisticUpdate(product.id, {...fresh, version:
    staleVersion})], whose body sends name, price, stock and version of its
    argument to [PUT /products/:id]; the route hands the id and the body to
    [update]. *)
Definition staleUpdate (now : Z) (fresh : Product) : Async Product.t :=
  ProductsService.update now (id fresh)
    (UpdateProductDto.mk (name fresh) (price fresh) (stock fresh)
       (staleVersion fresh)).

End Demo.

(** * Properties of the service *)

(** ** Column checks *)

Lemma hundredths_text c : hundredths (PriceText c) = c.
Proof. reflexivity. Qed.

Lemma price_same_text a c : price_same a (PriceText c) = true → a = PriceText c.
Proof.
  destruct a as [m e|c0]; simpl; [done|]. intros Hc. apply Z.eqb_eq in Hc. by subst.
Qed.

Lemma price_same_refl_text c : price_same (PriceText c) (PriceText c) = true.
Proof. simpl. apply Z.eqb_refl. Qed.

Lemma price_same_number m e b : price_same (PriceNumber m e) (PriceText b) = false.
Proof. reflexivity. Qed.


Lemma stored_form_idemp p : stored_form (stored_form p) = stored_form p.
Proof. reflexivity. Qed.

Lemma fits_columns_true n pr st :
  fits_columns n pr st = true
  ↔ name_fits n = true ∧ price_fits pr = true ∧ in_int st = true.
Proof. unfold fits_columns. rewrite !andb_true_iff. tauto. Qed.

Lemma in_int_spec n : in_int n = true ↔ int_min ≤ n ≤ int_max.
Proof. unfold in_int. rewrite andb_true_iff, !Z.leb_le. tauto. Qed.

Lemma price_fits_text c : price_fits (PriceText c) = true ↔ Z.abs c < 10 ^ 12.
Proof. unfold price_fits. simpl. apply Z.ltb_lt. Qed.

Lemma row_ok_stored_form i p :
  Product.id p = i →
  fits_columns (Product.name p) (Product.price p) (Product.stock p) = true →
  row_ok i (stored_form p).
Proof.
  intros Hid (Hn & Hp & Hs)%fits_columns_true. split; [done|]. split; [done|].
  split; [|done]. eexists. split; [reflexivity|]. by apply Z.ltb_lt.
Qed.

(** What [update] merges differs from the row exactly when the body does not
    repeat what is stored. *)
Lemma changes_updating dto p :
  Repo.changes (updating dto p) p = negb (sends_stored dto p).
Proof.
  unfold Repo.changes, sends_stored, updating. simpl.
  by rewrite !negb_andb.
Qed.

(** When the body repeats what is stored, the merged instance is the row. *)
Lemma updating_stored dto p c :
  Product.price p = PriceText c → sends_stored dto p = true → updating dto p = p.
Proof.
  intros Hc. unfold sends_stored. rewrite !andb_true_iff.
  intros [[Hn Hp] Hs]. apply String.eqb_eq in Hn. apply Z.eqb_eq in Hs.
  rewrite Hc in Hp. apply price_same_text in Hp.
  destruct p. unfold updating. simpl in *. congruence.
Qed.

(** On a row the table can hold, the database accepts the merged instance
    exactly when the three values of the body fit their columns. *)
Lemma accepted_updating dto i p :
  row_ok i p →
  Repo.accepted (updating dto p) p
  = fits_columns (UpdateProductDto.name dto) (UpdateProductDto.price dto)
      (UpdateProductDto.stock dto).
Proof.
  intros (_ & Hn & (c & Hc & Hr) & Hs).
  unfold Repo.accepted, fits_columns, updating. simpl. f_equal; [f_equal|].
  - destruct (String.eqb _ _) eqn:He; [|done]. apply String.eqb_eq in He.
    simpl. by rewrite He, Hn.
  - rewrite Hc. destruct (price_same _ _) eqn:He; [|done].
    apply price_same_text in He. rewrite He. simpl. symmetry.
    by apply price_fits_text.
  - destruct (_ =? _) eqn:He; [|done]. apply Z.eqb_eq in He.
    simpl. by rewrite He, Hs.
Qed.


(** A body that repeats what a row of the table holds fits the columns. *)
Lemma sends_stored_fits dto i p :
  row_ok i p → sends_stored dto p = true →
  fits_columns (UpdateProductDto.name dto) (UpdateProductDto.price dto)
    (UpdateProductDto.stock dto) = true.
Proof.
  intros Hok Hsame. rewrite <- (accepted_updating dto i p Hok).
  unfold sends_stored in Hsame. rewrite !andb_true_iff in Hsame.
  destruct Hsame as [[Hn Hp] Hs]. unfold Repo.accepted, updating. simpl.
  by rewrite Hn, Hp, Hs.
Qed.


(** ** Equations of the service *)

Section ServiceEquations.

Variables (now i : Z) (r : Repository).

Lemma findOne_missing :
  rows r !! i = None → in_int i = true →
  ProductsService.findOne i r = (Rejected (NotFoundException "Product not found"), r).
Proof.
  intros Hnone Hin. unfold ProductsService.findOne, bind, Repo.findOne.
  by rewrite Hnone, Hin.
Qed.

Lemma findOne_refused :
  rows r !! i = None → in_int i = false →
  ProductsService.findOne i r = (Rejected QueryFailedError, r).
Proof.
  intros Hnone Hin. unfold ProductsService.findOne, bind, Repo.findOne.
  by rewrite Hnone, Hin.
Qed.

Lemma findOne_present p :
  rows r !! i = Some p → ProductsService.findOne i r = (Resolved p, r).
Proof.
  intros Hsome. unfold ProductsService.findOne, bind, Repo.findOne.
  by rewrite Hsome.
Qed.

Lemma update_missing dto :
  rows r !! i = None → in_int i = true →
  ProductsService.update now i dto r
  = (Rejected (NotFoundException "Product not found"), r).
Proof.
  intros Hnone Hin. unfold ProductsService.update, bind, Repo.findOne.
  by rewrite Hnone, Hin.
Qed.

Lemma update_refused_id dto :
  rows r !! i = None → in_int i = false →
  ProductsService.update now i dto r = (Rejected QueryFailedError, r).
Proof.
  intros Hnone Hin. unfold ProductsService.update, bind, Repo.findOne.
  by rewrite Hnone, Hin.
Qed.

Lemma update_stale dto p :
  rows r !! i = Some p →
  UpdateProductDto.version dto ≠ Product.version p →
  ProductsService.update now i dto r
  = (Rejected (ConflictException "Optimistic lock conflict: stale version"), r).
Proof.
  intros Hsome Hne. unfold ProductsService.update, bind, Repo.findOne.
  rewrite Hsome. apply Z.eqb_neq in Hne. by rewrite Hne.
Qed.

(** With the current version, [update] is the save of the merged
    instance. *)
Lemma update_saves dto p :
  rows r !! i = Some p →
  UpdateProductDto.version dto = Product.version p →
  ProductsService.update now i dto r
  = Repo.save now (Loaded (updating dto p)) r.
Proof.
  intros Hsome Hv. unfold ProductsService.update, bind, Repo.findOne.
  rewrite Hsome. apply Z.eqb_eq in Hv. by rewrite Hv.
Qed.

Lemma update_unchanged dto p :
  rows r !! i = Some p →
  Product.id p = i →
  UpdateProductDto.version dto = Product.version p →
  sends_stored dto p = true →
  ProductsService.update now i dto r = (Resolved (updating dto p), r).
Proof.
  intros Hsome Hid Hv Hsame. rewrite (update_saves dto p Hsome Hv).
  unfold Repo.save. simpl. rewrite Hid, Hsome.
  by rewrite changes_updating, Hsame.
Qed.

Lemma update_written dto p :
  rows r !! i = Some p →
  Product.id p = i →
  UpdateProductDto.version dto = Product.version p →
  sends_stored dto p = false →
  Repo.accepted (updating dto p) p = true →
  ProductsService.update now i dto r
  = (Resolved (Repo.updated now p (updating dto p)),
     {| rows := <[i := stored_form (Repo.updated now p (updating dto p))]> (rows r);
        next_id := next_id r |}).
Proof.
  intros Hsome Hid Hv Hsame Hacc. rewrite (update_saves dto p Hsome Hv).
  unfold Repo.save. simpl. rewrite Hid, Hsome.
  by rewrite changes_updating, Hsame, Hacc.
Qed.

Lemma update_refused_values dto p :
  rows r !! i = Some p →
  Product.id p = i →
  UpdateProductDto.version dto = Product.version p →
  sends_stored dto p = false →
  Repo.accepted (updating dto p) p = false →
  ProductsService.update now i dto r = (Rejected QueryFailedError, r).
Proof.
  intros Hsome Hid Hv Hsame Hacc. rewrite (update_saves dto p Hsome Hv).
  unfold Repo.save. simpl. rewrite Hid, Hsome.
  by rewrite changes_updating, Hsame, Hacc.
Qed.

Lemma create_inserts dto :
  ProductsService.create now dto r
  = Repo.insert now (CreateProductDto.name dto) (CreateProductDto.price dto)
      (CreateProductDto.stock dto) r.
Proof. reflexivity. Qed.

Lemma insert_accepted n pr st :
  fits_columns n pr st = true → next_id r ≤ int_max →
  Repo.insert now n pr st r
  = (Resolved (Product.mk (next_id r) n pr st initial_version now now),
     {| rows := <[next_id r :=
                   stored_form (Product.mk (next_id r) n pr st initial_version now now)]>
                  (rows r);
        next_id := next_id r + 1 |}).
Proof.
  intros Hfit Hseq. unfold Repo.insert. rewrite Hfit.
  apply Z.leb_le in Hseq. by rewrite Hseq.
Qed.

Lemma insert_refused n pr st :
  fits_columns n pr st = false ∨ int_max < next_id r →
  Repo.insert now n pr st r = (Rejected QueryFailedError, r).
Proof.
  intros Hno. unfold Repo.insert.
  destruct Hno as [->|Hseq]; [done|].
  apply Z.leb_gt in Hseq. rewrite Hseq. by rewrite andb_false_r.
Qed.

Lemma insert_cases n pr st :
  (fits_columns n pr st = true ∧ next_id r ≤ int_max)
  ∨ (fits_columns n pr st = false ∨ int_max < next_id r).
Proof. destruct (fits_columns n pr st); [|by right; left]. lia. Qed.

Lemma purchase_invalid q :
  q ≤ 0 →
  InventoryStore.purchase now i q r
  = (Rejected (BadRequestException "quantity must be a positive integer"), r).
Proof.
  intros Hq. unfold InventoryStore.purchase.
  apply Z.leb_le in Hq. by rewrite Hq.
Qed.

Lemma purchase_missing q :
  0 < q → rows r !! i = None → in_int i = true →
  InventoryStore.purchase now i q r
  = (Rejected (NotFoundException "Product not found"), r).
Proof.
  intros Hq Hnone Hin. unfold InventoryStore.purchase.
  apply Z.leb_gt in Hq. rewrite Hq.
  unfold bind, Repo.findOne. by rewrite Hnone, Hin.
Qed.

Lemma purchase_refused_id q :
  0 < q → rows r !! i = None → in_int i = false →
  InventoryStore.purchase now i q r = (Rejected QueryFailedError, r).
Proof.
  intros Hq Hnone Hin. unfold InventoryStore.purchase.
  apply Z.leb_gt in Hq. rewrite Hq.
  unfold bind, Repo.findOne. by rewrite Hnone, Hin.
Qed.

Lemma purchase_insufficient q p :
  0 < q → rows r !! i = Some p → Product.stock p < q →
  InventoryStore.purchase now i q r
  = (Rejected (ConflictException "insufficient stock"), r).
Proof.
  intros Hq Hsome Hlt. unfold InventoryStore.purchase.
  apply Z.leb_gt in Hq. rewrite Hq.
  unfold bind, Repo.findOne. rewrite Hsome.
  apply Z.ltb_lt in Hlt. by rewrite Hlt.
Qed.

Lemma purchase_sufficient q p :
  0 < q → rows r !! i = Some p → row_ok i p → q ≤ Product.stock p →
  let p' := {| Product.id := i;
               Product.name := Product.name p;
               Product.price := Product.price p;
               Product.stock := Product.stock p - q;
               Product.version := Product.version p + 1;
               Product.createdAt := Product.createdAt p;
               Product.updatedAt := now |} in
  InventoryStore.purchase now i q r
  = (Resolved p', {| rows := <[i := p']> (rows r); next_id := next_id r |}).
Proof.
  intros Hq Hsome (Hid & Hn & (c & Hc & Hr) & Hs) Hge. unfold InventoryStore.purchase.
  assert ((q <=? 0) = false) as -> by (apply Z.leb_gt; lia).
  unfold bind, Repo.findOne. rewrite Hsome.
  assert ((Product.stock p <? q) = false) as -> by (apply Z.ltb_ge; lia).
  unfold Repo.save, Repo.merge. simpl. rewrite Hid, Hsome.
  unfold Repo.changes, Repo.accepted. simpl.
  rewrite String.eqb_refl, Hc, price_same_refl_text. simpl.
  assert ((Product.stock p - q =? Product.stock p) = false) as ->
    by (apply Z.eqb_neq; lia).
  simpl. apply in_int_spec in Hs.
  assert (in_int (Product.stock p - q) = true) as ->
    by (apply in_int_spec; unfold int_min, int_max in *; lia).
  unfold Repo.updated, stored_form. simpl. by rewrite ?Hid, ?Hc.
Qed.

End ServiceEquations.

(** ** Well-formed repositories *)

Lemma well_formed_empty : well_formed empty_repository.
Proof.
  split; [unfold int_max; simpl; lia|].
  intros i p Hi. simpl in Hi. by rewrite lookup_empty in Hi.
Qed.

Lemma well_formed_row r i p : well_formed r → rows r !! i = Some p → row_ok i p.
Proof. intros [_ Hwf] Hp. by destruct (Hwf _ _ Hp). Qed.

Lemma well_formed_id r i p : well_formed r → rows r !! i = Some p → Product.id p = i.
Proof. intros Hwf Hp. by destruct (well_formed_row r i p Hwf Hp). Qed.

Lemma well_formed_key r i p : well_formed r → rows r !! i = Some p → in_int i = true.
Proof.
  intros [Hseq Hwf] Hp. destruct (Hwf _ _ Hp) as [_ Hi].
  apply in_int_spec. unfold int_min, int_max in *. lia.
Qed.

Lemma well_formed_next_id_free r : well_formed r → rows r !! next_id r = None.
Proof.
  intros [_ Hwf]. destruct (rows r !! next_id r) as [p|] eqn:Hp; [|done].
  destruct (Hwf _ _ Hp) as [_ ?]. lia.
Qed.

(** On a well-formed repository [repo.findOne] is the query that checks its
    parameter against the key column first. *)
Lemma findOne_checks_id_first r i :
  well_formed r →
  Repo.findOne i r
  = if in_int i then (Resolved (rows r !! i), r) else (Rejected QueryFailedError, r).
Proof.
  intros Hwf. unfold Repo.findOne. destruct (rows r !! i) as [p|] eqn:Hp.
  - by rewrite (well_formed_key r i p Hwf Hp).
  - done.
Qed.

Lemma well_formed_insert_same r i p p' :
  well_formed r → rows r !! i = Some p → row_ok i p' →
  well_formed {| rows := <[i := p']> (rows r); next_id := next_id r |}.
Proof.
  intros [Hpos Hwf] Hp Hok. split; [done|]. intros j q. simpl.
  rewrite lookup_insert. case_decide as Hij.
  - intros [= <-]. subst j. split; [done|]. by destruct (Hwf _ _ Hp).
  - apply Hwf.
Qed.

Lemma well_formed_insert_next r p' :
  well_formed r → next_id r ≤ int_max → row_ok (next_id r) p' →
  well_formed {| rows := <[next_id r := p']> (rows r); next_id := next_id r + 1 |}.
Proof.
  intros [Hpos Hwf] Hseq Hok. split; [simpl; lia|]. intros j q. simpl.
  rewrite lookup_insert. case_decide as Hij.
  - intros [= <-]. subst j. split; [done|lia].
  - intros Hq. destruct (Hwf _ _ Hq). split; [done|lia].
Qed.

(** ** What a call does to the table *)

(** [create] leaves the repository alone (refused) or adds one row under the
    next id of the sequence. *)
Lemma create_touches_cases now dto r :
  (ProductsService.create now dto r = (Rejected QueryFailedError, r))
  ∨ (fits_columns (CreateProductDto.name dto) (CreateProductDto.price dto)
       (CreateProductDto.stock dto) = true
     ∧ next_id r ≤ int_max
     ∧ ProductsService.create now dto r
       = (Resolved (Product.mk (next_id r) (CreateProductDto.name dto)
                      (CreateProductDto.price dto) (CreateProductDto.stock dto)
                      initial_version now now),
          {| rows := <[next_id r :=
                        stored_form
                          (Product.mk (next_id r) (CreateProductDto.name dto)
                             (CreateProductDto.price dto) (CreateProductDto.stock dto)
                             initial_version now now)]> (rows r);
             next_id := next_id r + 1 |})).
Proof.
  rewrite create_inserts.
  destruct (insert_cases r (CreateProductDto.name dto) (CreateProductDto.price dto)
              (CreateProductDto.stock dto)) as [[Hfit Hseq]|Hno].
  - right. split; [done|]. split; [done|]. by apply insert_accepted.
  - left. by apply insert_refused.
Qed.

(** The outcomes of [update] on a well-formed repository, one per path of
    its body and of the save. *)
Lemma update_cases now i dto r :
  well_formed r →
  (rows r !! i = None ∧ in_int i = true
   ∧ ProductsService.update now i dto r
     = (Rejected (NotFoundException "Product not found"), r))
  ∨ (rows r !! i = None ∧ in_int i = false
     ∧ ProductsService.update now i dto r = (Rejected QueryFailedError, r))
  ∨ (∃ p, rows r !! i = Some p
          ∧ UpdateProductDto.version dto ≠ Product.version p
          ∧ ProductsService.update now i dto r
            = (Rejected (ConflictException "Optimistic lock conflict: stale version"), r))
  ∨ (∃ p, rows r !! i = Some p
          ∧ UpdateProductDto.version dto = Product.version p
          ∧ sends_stored dto p = true
          ∧ updating dto p = p
          ∧ ProductsService.update now i dto r = (Resolved p, r))
  ∨ (∃ p, rows r !! i = Some p
          ∧ UpdateProductDto.version dto = Product.version p
          ∧ sends_stored dto p = false
          ∧ fits_columns (UpdateProductDto.name dto) (UpdateProductDto.price dto)
              (UpdateProductDto.stock dto) = false
          ∧ ProductsService.update now i dto r = (Rejected QueryFailedError, r))
  ∨ (∃ p, rows r !! i = Some p
          ∧ UpdateProductDto.version dto = Product.version p
          ∧ sends_stored dto p = false
          ∧ fits_columns (UpdateProductDto.name dto) (UpdateProductDto.price dto)
              (UpdateProductDto.stock dto) = true
          ∧ ProductsService.update now i dto r
            = (Resolved (Repo.updated now p (updating dto p)),
               {| rows := <[i := stored_form (Repo.updated now p (updating dto p))]>
                            (rows r);
                  next_id := next_id r |})).
Proof.
  intros Hwf. destruct (rows r !! i) as [p|] eqn:Hp.
  - pose proof (well_formed_row r i p Hwf Hp) as Hok.
    pose proof (well_formed_id r i p Hwf Hp) as Hid.
    destruct (decide (UpdateProductDto.version dto = Product.version p)) as [Hv|Hv].
    + destruct (sends_stored dto p) eqn:Hsame.
      * do 3 right. left. exists p. split; [done|]. split; [done|]. split; [done|].
        destruct Hok as (_ & _ & (c & Hc & _) & _).
        pose proof (updating_stored dto p c Hc Hsame) as Heq.
        split; [done|].
        rewrite (update_unchanged now i r dto p Hp Hid Hv Hsame). by rewrite Heq.
      * pose proof (accepted_updating dto i p Hok) as Hacc.
        destruct (fits_columns _ _ _) eqn:Hfit.
        -- do 5 right. exists p. split; [done|]. split; [done|]. split; [done|].
           split; [done|]. by apply (update_written now i r dto p).
        -- do 4 right. left. exists p. split; [done|]. split; [done|]. split; [done|].
           split; [done|]. by apply (update_refused_values now i r dto p).
    + do 2 right. left. exists p. split; [done|]. split; [done|].
      by apply (update_stale now i r dto p).
  - destruct (in_int i) eqn:Hin.
    + left. split; [done|]. split; [done|]. by apply update_missing.
    + right. left. split; [done|]. split; [done|]. by apply update_refused_id.
Qed.

(** The row written by an accepted update is one the table can hold. *)
Lemma row_ok_updated now i dto p :
  row_ok i p →
  fits_columns (UpdateProductDto.name dto) (UpdateProductDto.price dto)
    (UpdateProductDto.stock dto) = true →
  row_ok i (stored_form (Repo.updated now p (updating dto p))).
Proof.
  intros (Hid & _) Hfit. apply row_ok_stored_form; [done|]. exact Hfit.
Qed.

(** A call on id [j] leaves the repository alone or overwrites the row
    stored under [j] with a row the table can hold, of the same id and
    creation date and of the next version. *)
Lemma update_touches_cases now j dto r :
  well_formed r →
  (ProductsService.update now j dto r).2 = r
  ∨ ∃ p0 p1, rows r !! j = Some p0
             ∧ row_ok j p1
             ∧ Product.createdAt p1 = Product.createdAt p0
             ∧ Product.version p1 = Product.version p0 + 1
             ∧ Product.stock p1 = UpdateProductDto.stock dto
             ∧ (ProductsService.update now j dto r).2
               = {| rows := <[j := p1]> (rows r); next_id := next_id r |}.
Proof.
  intros Hwf.
  destruct (update_cases now j dto r Hwf)
    as [(_ & _ & He)|[(_ & _ & He)|[(p & _ & _ & He)|[(p & _ & _ & _ & _ & He)|
        [(p & _ & _ & _ & _ & He)|(p & Hp & Hv & Hsame & Hfit & He)]]]]];
    rewrite He; try by left.
  right. eexists p, _. split; [done|].
  split; [eapply row_ok_updated; [by eapply well_formed_row|done]|].
  by repeat split.
Qed.

Lemma purchase_touches_cases now j q r :
  well_formed r →
  (InventoryStore.purchase now j q r).2 = r
  ∨ ∃ p0 p1, rows r !! j = Some p0
             ∧ row_ok j p1
             ∧ Product.createdAt p1 = Product.createdAt p0
             ∧ Product.version p1 = Product.version p0 + 1
             ∧ Product.stock p1 = Product.stock p0 - q
             ∧ 0 < q ≤ Product.stock p0
             ∧ (InventoryStore.purchase now j q r).2
               = {| rows := <[j := p1]> (rows r); next_id := next_id r |}.
Proof.
  intros Hwf. destruct (decide (q ≤ 0)) as [Hq|Hq].
  { left. by rewrite purchase_invalid. }
  destruct (rows r !! j) as [p0|] eqn:Hp0.
  - pose proof (well_formed_row r j p0 Hwf Hp0) as Hok.
    destruct (decide (Product.stock p0 < q)) as [Hs|Hs].
    + left. by rewrite (purchase_insufficient now j r q p0) by (done || lia).
    + right. rewrite (purchase_sufficient now j r q p0); [|lia|done|done|lia].
      exists p0, {| Product.id := j;
                    Product.name := Product.name p0;
                    Product.price := Product.price p0;
                    Product.stock := Product.stock p0 - q;
                    Product.version := Product.version p0 + 1;
                    Product.createdAt := Product.createdAt p0;
                    Product.updatedAt := now |}.
      split; [done|]. simpl.
      split; [|repeat split; (done || lia)].
      destruct Hok as (Hid & Hn & (c & Hc & Hr) & Hst).
      split; [done|]. split; [done|].
      split; [exists c; split; [exact Hc|exact Hr]|]. simpl.
      apply in_int_spec in Hst. apply in_int_spec.
      unfold int_min, int_max in *. lia.
  - left. destruct (in_int j) eqn:Hin.
    + by rewrite purchase_missing by (done || lia).
    + by rewrite purchase_refused_id by (done || lia).
Qed.

Lemma well_formed_create now dto r :
  well_formed r → well_formed (ProductsService.create now dto r).2.
Proof.
  intros Hwf. destruct (create_touches_cases now dto r) as [He|(Hfit & Hseq & He)];
    rewrite He; [done|]. simpl.
  apply well_formed_insert_next; [done|done|]. by apply row_ok_stored_form.
Qed.

Lemma well_formed_update now i dto r :
  well_formed r → well_formed (ProductsService.update now i dto r).2.
Proof.
  intros Hwf. destruct (update_touches_cases now i dto r Hwf)
    as [->|(p0 & p1 & Hp0 & Hok & _ & _ & _ & ->)]; [done|].
  by eapply well_formed_insert_same.
Qed.

Lemma well_formed_purchase now i q r :
  well_formed r → well_formed (InventoryStore.purchase now i q r).2.
Proof.
  intros Hwf. destruct (purchase_touches_cases now i q r Hwf)
    as [->|(p0 & p1 & Hp0 & Hok & _ & _ & _ & _ & ->)]; [done|].
  by eapply well_formed_insert_same.
Qed.

Lemma well_formed_run_op r o : well_formed r → well_formed (run_op r o).
Proof.
  intros Hwf. destruct o; simpl.
  - by apply well_formed_create.
  - by apply well_formed_update.
  - by apply well_formed_purchase.
Qed.

Lemma well_formed_run_ops ops r : well_formed r → well_formed (run_ops ops r).
Proof.
  revert r. induction ops as [|o ops IH]; intros r Hwf; simpl; [done|].
  apply IH. by apply well_formed_run_op.
Qed.

Lemma reachable_well_formed r : reachable r → well_formed r.
Proof. intros [ops ->]. apply well_formed_run_ops, well_formed_empty. Qed.

(** ** Facts of the demo scenario *)

Lemma demo_repository_reachable : reachable demo_repository.
Proof. by exists [OpCreate 100 demo_dto]. Qed.

Lemma demo_repository_well_formed : well_formed demo_repository.
Proof. apply reachable_well_formed, demo_repository_reachable. Qed.

Lemma demo_repository_lookup : rows demo_repository !! 1 = Some demo_product.
Proof. reflexivity. Qed.

(** ** Optimistic update *)

(** C1. When the row exists and the version sent differs from the stored
    version, [update] rejects with a conflict and leaves the repository, hence
    the stored record with all its fields, exactly as it was. *)
Theorem optimistic_rejection now i dto r p :
  rows r !! i = Some p →
  UpdateProductDto.version dto ≠ Product.version p →
  ∃ e, ProductsService.update now i dto r = (Rejected e, r)
       ∧ kind_of e = ConflictError
       ∧ rows (ProductsService.update now i dto r).2 !! i = Some p.
Proof.
  intros Hp Hv. eexists. rewrite (update_stale now i r dto p Hp Hv).
  by repeat split.
Qed.

Lemma optimistic_rejection_witness :
  ∃ e, ProductsService.update 200 1
         (UpdateProductDto.mk "LockDemo" (PriceText 1000) 5 0) demo_repository
       = (Rejected e, demo_repository)
       ∧ kind_of e = ConflictError
       ∧ rows (ProductsService.update 200 1
                 (UpdateProductDto.mk "LockDemo" (PriceText 1000) 5 0)
                 demo_repository).2 !! 1
         = Some demo_product.
Proof.
  apply (optimistic_rejection 200 1 (UpdateProductDto.mk "LockDemo" (PriceText 1000) 5 0)
           demo_repository demo_product).
  - reflexivity.
  - simpl. lia.
Defined.




(** The update of the witness, run: price 12.005 is returned as sent and
    stored as 12.01. *)
Example update_rounds_stored_price :
  ProductsService.update 200 1
    (UpdateProductDto.mk "LockDemo+" (PriceNumber 12005 3) 7 1) demo_repository
  = (Resolved (Product.mk 1 "LockDemo+" (PriceNumber 12005 3) 7 2 100 200),
     {| rows := {[ 1 := Product.mk 1 "LockDemo+" (PriceText 1201) 7 2 100 200 ]};
        next_id := 2 |}).
Proof. reflexivity. Qed.




(** ** Reading *)

(** C6, as stated, fails: under an id outside the range of the key column
    nothing is stored, and [findOne] and [update] reject with the database's
    error, not with not-found. *)
Lemma out_of_range_id_refused :
  rows demo_repository !! 2147483648 = None
  ∧ ProductsService.findOne 2147483648 demo_repository
    = (Rejected QueryFailedError, demo_repository)
  ∧ ProductsService.update 200 2147483648
      (UpdateProductDto.mk "LockDemo" (PriceNumber 10 0) 5 1) demo_repository
    = (Rejected QueryFailedError, demo_repository)
  ∧ kind_of QueryFailedError ≠ NotFoundError.
Proof. by repeat split. Qed.

(** C6, amended. For an id with no row: when the id is in the range of the
    integer key column, [findOne] and [update] both reject with a not-found
    error; when it is outside that range, both reject with the database's
    error.  And [findOne], for any id and any repository, leaves the
    repository as it found it. *)
Theorem unknown_id_not_found now i dto r :
  rows r !! i = None →
  (in_int i = true →
   (∃ e, ProductsService.findOne i r = (Rejected e, r) ∧ kind_of e = NotFoundError)
   ∧ (∃ e, ProductsService.update now i dto r = (Rejected e, r)
           ∧ kind_of e = NotFoundError))
  ∧ (in_int i = false →
     (∃ e, ProductsService.findOne i r = (Rejected e, r) ∧ kind_of e = DatabaseError)
     ∧ (∃ e, ProductsService.update now i dto r = (Rejected e, r)
             ∧ kind_of e = DatabaseError))
  ∧ (∀ j r0, (ProductsService.findOne j r0).2 = r0).
Proof.
  intros Hnone. split; [|split].
  - intros Hin. split; eexists.
    + by rewrite findOne_missing.
    + by rewrite update_missing.
  - intros Hin. split; eexists.
    + by rewrite findOne_refused.
    + by rewrite update_refused_id.
  - intros j r0. destruct (rows r0 !! j) as [p|] eqn:Hp.
    + by rewrite (findOne_present j r0 p).
    + destruct (in_int j) eqn:Hin.
      * by rewrite findOne_missing.
      * by rewrite findOne_refused.
Qed.

Lemma unknown_id_not_found_witness :
  ((∃ e, ProductsService.findOne 2 demo_repository = (Rejected e, demo_repository)
         ∧ kind_of e = NotFoundError)
   ∧ (∃ e, ProductsService.update 200 2
             (UpdateProductDto.mk "LockDemo" (PriceNumber 10 0) 5 1) demo_repository
           = (Rejected e, demo_repository)
           ∧ kind_of e = NotFoundError))
  ∧ ((∃ e, ProductsService.findOne (-2147483649) demo_repository
           = (Rejected e, demo_repository)
           ∧ kind_of e = DatabaseError)
     ∧ (∃ e, ProductsService.update 200 (-2147483649)
               (UpdateProductDto.mk "LockDemo" (PriceNumber 10 0) 5 1) demo_repository
             = (Rejected e, demo_repository)
             ∧ kind_of e = DatabaseError)).
Proof.
  split.
  - apply (proj1 (unknown_id_not_found 200 2
                    (UpdateProductDto.mk "LockDemo" (PriceNumber 10 0) 5 1)
                    demo_repository eq_refl)).
    reflexivity.
  - apply (proj1 (proj2 (unknown_id_not_found 200 (-2147483649)
                           (UpdateProductDto.mk "LockDemo" (PriceNumber 10 0) 5 1)
                           demo_repository eq_refl))).
    reflexivity.
Defined.

(** ** Creation *)







(** ** Purchase *)

(** C5. [purchase] rejects a quantity that is not positive with a validation
    error; for a positive quantity above the stock of an existing product it
    rejects with a conflict and leaves the repository as it was; for a
    positive quantity within the stock it resolves with the record whose
    stock is decremented by the quantity, whose version is incremented by one
    and whose update date is the instant of the save, and stores it. *)
Theorem purchase_contract now i q r :
  (q ≤ 0 →
   ∃ e, InventoryStore.purchase now i q r = (Rejected e, r)
        ∧ kind_of e = ValidationError)
  ∧ (∀ p, 0 < q → rows r !! i = Some p → Product.stock p < q →
     ∃ e, InventoryStore.purchase now i q r = (Rejected e, r)
          ∧ kind_of e = ConflictError
          ∧ rows (InventoryStore.purchase now i q r).2 !! i = Some p)
  ∧ (∀ p, well_formed r → 0 < q → rows r !! i = Some p → q ≤ Product.stock p →
     ∃ p' r', InventoryStore.purchase now i q r = (Resolved p', r')
              ∧ rows r' !! i = Some p'
              ∧ Product.stock p' = Product.stock p - q
              ∧ Product.version p' = Product.version p + 1
              ∧ Product.updatedAt p' = now
              ∧ Product.name p' = Product.name p
              ∧ Product.price p' = Product.price p).
Proof.
  split; [|split].
  - intros Hq. eexists. by rewrite purchase_invalid.
  - intros p Hq Hp Hlt. eexists.
    rewrite (purchase_insufficient now i r q p Hq Hp Hlt). by repeat split.
  - intros p Hwf Hq Hp Hge.
    pose proof (purchase_sufficient now i r q p Hq Hp
                  (well_formed_row _ _ _ Hwf Hp) Hge) as Heq.
    simpl in Heq. eexists _, _. split; [exact Heq|]. simpl.
    rewrite lookup_insert_eq. by repeat split.
Qed.

Lemma purchase_contract_witness :
  (∃ e, InventoryStore.purchase 200 1 0 demo_repository = (Rejected e, demo_repository)
        ∧ kind_of e = ValidationError)
  ∧ (∃ e, InventoryStore.purchase 200 1 6 demo_repository = (Rejected e, demo_repository)
          ∧ kind_of e = ConflictError
          ∧ rows (InventoryStore.purchase 200 1 6 demo_repository).2 !! 1
            = Some demo_product)
  ∧ (∃ p' r', InventoryStore.purchase 200 1 2 demo_repository = (Resolved p', r')
              ∧ rows r' !! 1 = Some p'
              ∧ Product.stock p' = Product.stock demo_product - 2
              ∧ Product.version p' = Product.version demo_product + 1
              ∧ Product.updatedAt p' = 200
              ∧ Product.name p' = Product.name demo_product
              ∧ Product.price p' = Product.price demo_product).
Proof.
  split; [|split].
  - apply (proj1 (purchase_contract 200 1 0 demo_repository)). lia.
  - apply (proj1 (proj2 (purchase_contract 200 1 6 demo_repository)) demo_product).
    + lia.
    + reflexivity.
    + simpl. lia.
  - apply (proj2 (proj2 (purchase_contract 200 1 2 demo_repository)) demo_product).
    + exact demo_repository_well_formed.
    + lia.
    + reflexivity.
    + simpl. lia.
Defined.

(** ** Frame and invariants over histories *)

Lemma run_op_keeps_identity r o i p :
  well_formed r →
  rows r !! i = Some p →
  ∃ p', rows (run_op r o) !! i = Some p'
        ∧ Product.id p' = Product.id p
        ∧ Product.createdAt p' = Product.createdAt p.
Proof.
  intros Hwf Hp. pose proof (well_formed_id _ _ _ Hwf Hp) as Hid.
  destruct o as [now dto|now j dto|now j q]; unfold run_op.
  - destruct (create_touches_cases now dto r) as [He|(_ & _ & He)]; rewrite He; simpl.
    + by exists p.
    + exists p. split; [|done]. rewrite lookup_insert_ne; [done|].
      intros Heq. rewrite <- Heq, well_formed_next_id_free in Hp; done.
  - destruct (update_touches_cases now j dto r Hwf)
      as [->|(p0 & p1 & Hp0 & Hok & Hc & _ & _ & ->)]; [by exists p|].
    simpl. rewrite lookup_insert. case_decide as Hij; [|by exists p].
    subst j. exists p1. split; [done|]. assert (p0 = p) by congruence. subst p0.
    destruct Hok as (Hid1 & _). split; congruence.
  - destruct (purchase_touches_cases now j q r Hwf)
      as [->|(p0 & p1 & Hp0 & Hok & Hc & _ & _ & _ & ->)]; [by exists p|].
    simpl. rewrite lookup_insert. case_decide as Hij; [|by exists p].
    subst j. exists p1. split; [done|]. assert (p0 = p) by congruence. subst p0.
    destruct Hok as (Hid1 & _). split; congruence.
Qed.

(** C8. Whatever calls follow (updates and purchases, resolved or rejected,
    and creations of other products), a stored record is still stored under
    its id, with the same id and the same creation date. *)
Theorem id_and_createdAt_immutable ops r i p :
  well_formed r →
  rows r !! i = Some p →
  ∃ p', rows (run_ops ops r) !! i = Some p'
        ∧ Product.id p' = Product.id p
        ∧ Product.createdAt p' = Product.createdAt p.
Proof.
  revert r p. induction ops as [|o ops IH]; intros r p Hwf Hp; simpl.
  - by exists p.
  - destruct (run_op_keeps_identity r o i p Hwf Hp) as (p1 & Hp1 & Hid1 & Hc1).
    destruct (IH (run_op r o) p1 (well_formed_run_op _ _ Hwf) Hp1)
      as (p2 & Hp2 & Hid2 & Hc2).
    exists p2. split; [done|]. split; congruence.
Qed.

Lemma id_and_createdAt_immutable_witness :
  ∃ p', rows (run_ops demo_history demo_repository) !! 1 = Some p'
        ∧ Product.id p' = Product.id demo_product
        ∧ Product.createdAt p' = Product.createdAt demo_product.
Proof.
  apply (id_and_createdAt_immutable demo_history demo_repository 1 demo_product).
  - exact demo_repository_well_formed.
  - reflexivity.
Defined.

(** C2, as stated, fails: a reachable repository holds a product with
    negative stock. *)
Lemma negative_stock_reachable :
  reachable (run_ops negative_stock_history empty_repository)
  ∧ rows (run_ops negative_stock_history empty_repository) !! 1
    = Some (Product.mk 1 "LockDemo" (PriceText 1000) (-1) 2 100 200)
  ∧ ¬ stock_nonneg (run_ops negative_stock_history empty_repository).
Proof.
  split; [by exists negative_stock_history|]. split; [done|].
  intros Hnn.
  specialize (Hnn 1 (Product.mk 1 "LockDemo" (PriceText 1000) (-1) 2 100 200) eq_refl).
  simpl in Hnn. lia.
Qed.

Lemma run_op_stock_nonneg r o :
  well_formed r → stock_nonneg r → supplies_nonneg o = true →
  stock_nonneg (run_op r o).
Proof.
  intros Hwf Hnn Hsup.
  destruct o as [now dto|now j dto|now j q]; unfold run_op;
    unfold supplies_nonneg in Hsup; simpl in Hsup.
  - destruct (create_touches_cases now dto r) as [He|(_ & _ & He)]; rewrite He;
      [done|].
    intros i p. simpl. rewrite lookup_insert.
    case_decide; [|by apply Hnn]. intros [= <-]. simpl. lia.
  - destruct (update_touches_cases now j dto r Hwf)
      as [->|(p0 & p1 & Hp0 & _ & _ & _ & Hs & ->)]; [done|].
    intros i p. simpl. rewrite lookup_insert.
    case_decide; [|by apply Hnn]. intros [= <-]. lia.
  - destruct (purchase_touches_cases now j q r Hwf)
      as [->|(p0 & p1 & Hp0 & _ & _ & _ & Hs & Hq & ->)]; [done|].
    intros i p. simpl. rewrite lookup_insert.
    case_decide; [|by apply Hnn]. intros [= <-]. lia.
Qed.

(** C2, amended. Creation and update store the stock they are given, and a
    purchase never takes stock below zero: along every history whose
    creations and updates supply non-negative stock, starting from a
    repository where no stock is negative, no product ever has negative
    stock. *)
Theorem stock_never_negative ops r :
  well_formed r →
  stock_nonneg r →
  forallb supplies_nonneg ops = true →
  stock_nonneg (run_ops ops r).
Proof.
  revert r. induction ops as [|o ops IH]; intros r Hwf Hnn Hall; simpl; [done|].
  simpl in Hall. apply andb_true_iff in Hall as [Ho Hops].
  apply IH; [by apply well_formed_run_op | by apply run_op_stock_nonneg | done].
Qed.

Lemma stock_never_negative_witness :
  stock_nonneg (run_ops (OpCreate 100 demo_dto :: demo_history) empty_repository).
Proof.
  apply (stock_never_negative (OpCreate 100 demo_dto :: demo_history) empty_repository).
  - exact well_formed_empty.
  - intros i p Hp. simpl in Hp. rewrite lookup_empty in Hp. discriminate Hp.
  - reflexivity.
Defined.

(** * Concurrent purchases are serialized *)

Section ConcurrentPurchases.

Import LockedPurchase.

Lemma total_insert (f : Call → Z) (l : list Call) (i : nat) (c c' : Call) :
  l !! i = Some c → total f (<[i := c']> l) = total f l - f c + f c'.
Proof.
  revert i. induction l as [|a l IH]; intros [|i] Hi; simpl in *; try done.
  - injection Hi as ->. lia.
  - rewrite (IH i Hi). lia.
Qed.

Lemma total_pending (f : Call → Z) (qs : list Z) :
  (∀ q, f (Pending q) = 0) → total f (Pending <$> qs) = 0.
Proof.
  intros Hf. induction qs as [|q qs IH]; [done|].
  rewrite fmap_cons. cbn [total]. rewrite Hf, IH. lia.
Qed.

Lemma total_le (f g : Call → Z) (l : list Call) :
  (∀ i c, l !! i = Some c → f c ≤ g c) → total f l ≤ total g l.
Proof.
  induction l as [|a l IH]; intros Hfg; simpl; [lia|].
  pose proof (Hfg 0%nat a eq_refl).
  assert (total f l ≤ total g l); [|lia].
  apply IH. intros i c Hi. by apply (Hfg (S i)).
Qed.

Lemma total_settled (f g : Call → Z) (l : list Call) :
  (∀ c, settled c = true → f c = g c) →
  forallb settled l = true → total f l = total g l.
Proof.
  intros Hfg. induction l as [|a l IH]; simpl; [done|].
  intros [Ha Hl]%andb_true_iff. rewrite (Hfg a Ha), (IH Hl). done.
Qed.

Lemma quantities_insert (l : list Call) (i : nat) (c c' : Call) :
  l !! i = Some c → quantity c' = quantity c →
  quantity <$> <[i := c']> l = quantity <$> l.
Proof.
  intros Hi Hq. rewrite list_fmap_insert, Hq.
  apply list_insert_id. by rewrite list_lookup_fmap, Hi.
Qed.

Variables (S V : Z) (qs : list Z).

Lemma invariant_init : 0 ≤ S → invariant S V qs (init S V qs).
Proof.
  intros HS. split; simpl.
  - rewrite <- list_fmap_compose. by induction qs as [|q l IH]; simpl; f_equal.
  - rewrite total_pending by done. lia.
  - rewrite total_pending by done. lia.
  - done.
  - intros i c Hc. rewrite list_lookup_fmap in Hc.
    destruct (qs !! i); simplify_eq/=. split; intros; discriminate.
  - intros i q seen Hc. rewrite list_lookup_fmap in Hc.
    destruct (qs !! i); simplify_eq/=.
  - intros i c Hc. rewrite list_lookup_fmap in Hc.
    destruct (qs !! i); simplify_eq/=. discriminate.
Qed.

(** Replacing call [i] and the row keeps the invariant when the new call
    and row agree with it locally. *)
Lemma invariant_update st i c c' stock' version' lock' :
  invariant S V qs st →
  calls st !! i = Some c →
  quantity c' = quantity c →
  stock' = stock st - (applied c' - applied c) →
  version' = version st + (applied_one c' - applied_one c) →
  0 ≤ stock' →
  (started c' = true → 0 < quantity c') →
  (holds_lock c' = true ↔ lock' = Some i) →
  (∀ j, j ≠ i → (lock' = Some j ↔ lock st = Some j)) →
  (∀ q seen, c' = Read q seen → seen = stock') →
  (stock' = stock st ∨ lock st = Some i) →
  invariant S V qs
    {| stock := stock'; version := version'; lock := lock';
       calls := <[i := c']> (calls st) |}.
Proof.
  intros [Hqs Hst Hver Hnn Hlock Hread Hstarted] Hc Hq Hs' Hv' Hnn' Hst' Hl' Hlj Hr' Hsl.
  pose proof (lookup_lt_Some _ _ _ Hc) as Hlen.
  split; simpl.
  - by rewrite (quantities_insert _ _ c).
  - rewrite (total_insert _ _ _ c) by done. lia.
  - rewrite (total_insert _ _ _ c) by done. lia.
  - done.
  - intros j cj. destruct (decide (i = j)) as [<-|Hij].
    + rewrite list_lookup_insert_eq by done. by intros [= <-].
    + rewrite list_lookup_insert_ne by done. intros Hcj.
      rewrite (Hlock _ _ Hcj). symmetry. by apply Hlj.
  - intros j q seen. destruct (decide (i = j)) as [<-|Hij].
    + rewrite list_lookup_insert_eq by done. intros [= ->]. by eapply Hr'.
    + rewrite list_lookup_insert_ne by done. intros Hcj.
      rewrite (Hread _ _ _ Hcj). destruct Hsl as [->|Hli]; [done|].
      apply Hlock in Hcj. simpl in Hcj.
      assert (lock st = Some j) as Hj by by apply Hcj.
      congruence.
  - intros j cj. destruct (decide (i = j)) as [<-|Hij].
    + rewrite list_lookup_insert_eq by done. by intros [= <-].
    + rewrite list_lookup_insert_ne by done. apply Hstarted.
Qed.

Lemma invariant_step st i st' :
  invariant S V qs st → step i st = Some st' → invariant S V qs st'.
Proof.
  intros Hinv Hstep. unfold step in Hstep.
  destruct (calls st !! i) as [c|] eqn:Hc; [|done].
  pose proof (inv_lock _ _ _ _ Hinv i c Hc) as Hli.
  pose proof (inv_started _ _ _ _ Hinv i c Hc) as Hsi.
  pose proof (inv_nonneg _ _ _ _ Hinv) as Hnn.
  destruct c as [q|q|q seen|q|q|q e]; simpl in *; try done.
  - (* validation, then the lock *)
    destruct (q <=? 0) eqn:Hq.
    + injection Hstep as <-. unfold set_call.
      eapply (invariant_update st i (Pending q)); eauto; simpl; try lia; done.
    + destruct (lock st) as [h|] eqn:Hl; [done|]. injection Hstep as <-.
      apply Z.leb_gt in Hq.
      eapply (invariant_update st i (Pending q)); eauto; simpl; try lia; try done.
      intros j Hj. rewrite Hl. split; [|done]. intros [= ->]. done.
  - (* read under the lock *)
    injection Hstep as <-. unfold set_call.
    eapply (invariant_update st i (Acquired q)); eauto; simpl; try lia; try done.
    by intros q0 seen [= _ ->].
  - (* check, then write or roll back *)
    pose proof (inv_read _ _ _ _ Hinv i q seen Hc) as Hseen.
    destruct (seen <? q) eqn:Hlt.
    + injection Hstep as <-.
      eapply (invariant_update st i (Read q seen)); eauto; simpl; try lia; try done.
      intros j Hj. split; [done|]. intros Hl.
      assert (lock st = Some i) as Hi by by apply Hli. congruence.
    + injection Hstep as <-. apply Z.ltb_ge in Hlt.
      eapply (invariant_update st i (Read q seen)); eauto; simpl; try lia; try done.
      right. by apply Hli.
  - (* commit *)
    injection Hstep as <-.
    eapply (invariant_update st i (Written q)); eauto; simpl; try lia; try done.
    intros j Hj. split; [done|]. intros Hl.
    assert (lock st = Some i) as Hi by by apply Hli. congruence.
Qed.

Lemma invariant_turn st i : invariant S V qs st → invariant S V qs (turn st i).
Proof.
  intros Hinv. unfold turn. destruct (step i st) as [st'|] eqn:Hstep; simpl; [|done].
  by eapply invariant_step.
Qed.

Lemma invariant_run sched st :
  invariant S V qs st → invariant S V qs (run sched st).
Proof.
  revert st. induction sched as [|i sched IH]; intros st Hinv; simpl; [done|].
  apply IH. by apply invariant_turn.
Qed.

Lemma committed_le_applied st :
  invariant S V qs st → total committed (calls st) ≤ total applied (calls st).
Proof.
  intros Hinv. apply total_le. intros i c Hc.
  pose proof (inv_started _ _ _ _ Hinv i c Hc) as Hs.
  destruct c; simpl in *; lia.
Qed.

(** *** The serial schedule settles every call *)

Lemma insert_middle (done rest : list Call) (c c' : Call) :
  <[length done := c']> (done ++ c :: rest) = done ++ c' :: rest.
Proof.
  rewrite insert_app_r_alt by lia.
  by replace (length done - length done)%nat with 0%nat by lia.
Qed.

(** One step of the call that sits after [done]. *)
Lemma step_middle s v l (done rest : list Call) (c : Call) :
  step (length done) (mkState s v l (done ++ c :: rest))
  = match c with
    | Pending q =>
        if q <=? 0
        then Some (mkState s v l (done ++ Failed q ValidationError :: rest))
        else match l with
             | None => Some (mkState s v (Some (length done))
                               (done ++ Acquired q :: rest))
             | Some _ => None
             end
    | Acquired q => Some (mkState s v l (done ++ Read q s :: rest))
    | Read q seen =>
        if seen <? q
        then Some (mkState s v None (done ++ Failed q ConflictError :: rest))
        else Some (mkState (seen - q) (v + 1) l (done ++ Written q :: rest))
    | Written q => Some (mkState s v None (done ++ Succeeded q :: rest))
    | Succeeded _ | Failed _ _ => None
    end.
Proof.
  unfold step, set_call. simpl. rewrite list_lookup_middle by done.
  destruct c as [q|q|q seen|q|q|q e]; try done.
  - destruct (q <=? 0); [by rewrite insert_middle|].
    destruct l; [done|]. by rewrite insert_middle.
  - by rewrite insert_middle.
  - destruct (seen <? q); by rewrite insert_middle.
  - by rewrite insert_middle.
Qed.

Local Ltac settle_here :=
  eexists _, _; split; [reflexivity|]; simpl; split; [reflexivity|]; done.

Lemma four_turns st (done rest : list Call) (q : Z) :
  calls st = done ++ Pending q :: rest →
  lock st = None →
  ∃ st' c',
    turn (turn (turn (turn st (length done)) (length done)) (length done))
      (length done) = st'
    ∧ calls st' = done ++ c' :: rest
    ∧ settled c' = true
    ∧ lock st' = None.
Proof.
  destruct st as [s v l cs]. simpl. intros -> ->.
  unfold turn at 4. rewrite step_middle.
  destruct (q <=? 0) eqn:Hq; simpl.
  { unfold turn. repeat (rewrite step_middle; simpl). settle_here. }
  unfold turn at 3. rewrite step_middle. simpl.
  unfold turn at 2. rewrite step_middle.
  destruct (s <? q) eqn:Hs; simpl.
  { unfold turn. repeat (rewrite step_middle; simpl). settle_here. }
  unfold turn. rewrite step_middle. simpl. settle_here.
Qed.

Lemma serial_from (rest : list Z) : ∀ (done : list Call) st,
  calls st = done ++ (Pending <$> rest) →
  lock st = None →
  forallb settled done = true →
  all_settled
    (run (flat_map (λ i, [i; i; i; i]) (seq (length done) (length rest))) st)
  = true.
Proof.
  induction rest as [|q rest IH]; intros done st Hcalls Hlock Hdone.
  - simpl. unfold all_settled. rewrite Hcalls. simpl. by rewrite app_nil_r.
  - rewrite fmap_cons in Hcalls.
    destruct (four_turns st done _ q Hcalls Hlock) as (st' & c' & Hst' & Hc' & Hs' & Hl').
    simpl. rewrite Hst'.
    replace (Datatypes.S (length done)) with (length (done ++ [c']))
      by (rewrite length_app; simpl; lia).
    apply IH; [by rewrite <- app_assoc | done |].
    rewrite forallb_app, Hdone. simpl. by rewrite Hs'.
Qed.

Lemma serial_settles : all_settled (run (serial (length qs)) (init S V qs)) = true.
Proof. by apply (serial_from qs []). Qed.

(** *** One call alone is the purchase of the store *)

(** A single call served alone ends as [InventoryStore.purchase] does on a
    row with the same stock and version. *)
Lemma single_call_agrees now i q r p :
  well_formed r →
  rows r !! i = Some p →
  match InventoryStore.purchase now i q r with
  | (Resolved p', _) =>
      run (serial 1) (init (Product.stock p) (Product.version p) [q])
      = mkState (Product.stock p') (Product.version p') None [Succeeded q]
  | (Rejected e, _) =>
      run (serial 1) (init (Product.stock p) (Product.version p) [q])
      = mkState (Product.stock p) (Product.version p) None [Failed q (kind_of e)]
  end.
Proof.
  intros Hwf Hp. unfold serial, run, init, turn, step. simpl.
  destruct (decide (q ≤ 0)) as [Hq|Hq].
  { rewrite purchase_invalid by done.
    assert ((q <=? 0) = true) as -> by by apply Z.leb_le. done. }
  assert ((q <=? 0) = false) as -> by (apply Z.leb_gt; lia). simpl.
  destruct (decide (Product.stock p < q)) as [Hs|Hs].
  - rewrite (purchase_insufficient now i r q p) by (done || lia).
    assert ((Product.stock p <? q) = true) as -> by by apply Z.ltb_lt. done.
  - rewrite (purchase_sufficient now i r q p);
      [|lia|done|by eapply well_formed_row|lia].
    assert ((Product.stock p <? q) = false) as -> by (apply Z.ltb_ge; lia). done.
Qed.

(** C4. Concurrent purchases of quantities [qs] against one product with
    stock [S]: under every schedule of their steps, every call keeps its
    quantity, the stock is never negative and always equals [S] minus the
    decrements written so far, so none is lost, and the committed quantities
    sum to at most [S]; once every call is settled the stock is [S] minus
    the sum of the quantities of the calls that succeeded and the version
    has grown by their number; and the schedule that serves the calls one
    after the other settles them all. *)
Theorem purchases_serialized (sched : list nat) :
  0 ≤ S →
  quantity <$> calls (run sched (init S V qs)) = qs
  ∧ 0 ≤ stock (run sched (init S V qs))
  ∧ stock (run sched (init S V qs))
    = S - total applied (calls (run sched (init S V qs)))
  ∧ total committed (calls (run sched (init S V qs))) ≤ S
  ∧ (all_settled (run sched (init S V qs)) = true →
     stock (run sched (init S V qs))
     = S - total committed (calls (run sched (init S V qs)))
     ∧ version (run sched (init S V qs))
       = V + total committed_one (calls (run sched (init S V qs))))
  ∧ all_settled (run (serial (length qs)) (init S V qs)) = true.
Proof.
  intros HS.
  pose proof (invariant_run sched _ (invariant_init HS)) as Hinv.
  pose proof (committed_le_applied _ Hinv) as Hle.
  destruct Hinv as [Hqs Hst Hver Hnn _ _ _].
  split; [done|]. split; [done|]. split; [done|]. split; [lia|].
  split; [|apply serial_settles].
  intros Hall. unfold all_settled in Hall.
  rewrite Hst, Hver.
  rewrite (total_settled committed applied) by (done || by intros []).
  rewrite (total_settled committed_one applied_one) by (done || by intros []).
  done.
Qed.

End ConcurrentPurchases.

(** The demo: stock 5, version 1, purchases of 2 and 4 whose steps
    interleave.  The call that takes the lock first wins. *)
Example demo_second_call_wins :
  LockedPurchase.run [1; 0; 1; 0; 1; 1; 0; 0; 0]%nat (LockedPurchase.init 5 1 [2; 4])
  = LockedPurchase.mkState 1 2 None
      [LockedPurchase.Failed 2 ConflictError; LockedPurchase.Succeeded 4].
Proof. reflexivity. Qed.

Example demo_first_call_wins :
  LockedPurchase.run [0; 1; 0; 1; 0; 0; 1; 1; 1]%nat (LockedPurchase.init 5 1 [2; 4])
  = LockedPurchase.mkState 3 2 None
      [LockedPurchase.Succeeded 2; LockedPurchase.Failed 4 ConflictError].
Proof. reflexivity. Qed.

Example demo_both_fit :
  LockedPurchase.run (LockedPurchase.serial 3) (LockedPurchase.init 5 1 [2; 0; 3])
  = LockedPurchase.mkState 0 3 None
      [LockedPurchase.Succeeded 2; LockedPurchase.Failed 0 ValidationError;
       LockedPurchase.Succeeded 3].
Proof. reflexivity. Qed.

Lemma purchases_serialized_witness :
  LockedPurchase.quantity <$>
    LockedPurchase.calls
      (LockedPurchase.run [1; 0; 1; 0; 1; 1; 0; 0; 0]%nat (LockedPurchase.init 5 1 [2; 4]))
  = [2; 4]
  ∧ 0 ≤ LockedPurchase.stock
          (LockedPurchase.run [1; 0; 1; 0; 1; 1; 0; 0; 0]%nat
             (LockedPurchase.init 5 1 [2; 4]))
  ∧ LockedPurchase.stock
      (LockedPurchase.run [1; 0; 1; 0; 1; 1; 0; 0; 0]%nat (LockedPurchase.init 5 1 [2; 4]))
    = 5 - LockedPurchase.total LockedPurchase.applied
            (LockedPurchase.calls
               (LockedPurchase.run [1; 0; 1; 0; 1; 1; 0; 0; 0]%nat
                  (LockedPurchase.init 5 1 [2; 4])))
  ∧ LockedPurchase.total LockedPurchase.committed
      (LockedPurchase.calls
         (LockedPurchase.run [1; 0; 1; 0; 1; 1; 0; 0; 0]%nat
            (LockedPurchase.init 5 1 [2; 4]))) ≤ 5
  ∧ (LockedPurchase.all_settled
       (LockedPurchase.run [1; 0; 1; 0; 1; 1; 0; 0; 0]%nat
          (LockedPurchase.init 5 1 [2; 4])) = true →
     LockedPurchase.stock
       (LockedPurchase.run [1; 0; 1; 0; 1; 1; 0; 0; 0]%nat
          (LockedPurchase.init 5 1 [2; 4]))
     = 5 - LockedPurchase.total LockedPurchase.committed
             (LockedPurchase.calls
                (LockedPurchase.run [1; 0; 1; 0; 1; 1; 0; 0; 0]%nat
                   (LockedPurchase.init 5 1 [2; 4])))
     ∧ LockedPurchase.version
         (LockedPurchase.run [1; 0; 1; 0; 1; 1; 0; 0; 0]%nat
            (LockedPurchase.init 5 1 [2; 4]))
       = 1 + LockedPurchase.total LockedPurchase.committed_one
               (LockedPurchase.calls
                  (LockedPurchase.run [1; 0; 1; 0; 1; 1; 0; 0; 0]%nat
                     (LockedPurchase.init 5 1 [2; 4]))))
  ∧ LockedPurchase.all_settled
      (LockedPurchase.run (LockedPurchase.serial (length [2; 4]))
         (LockedPurchase.init 5 1 [2; 4])) = true.
Proof.
  apply (purchases_serialized 5 1 [2; 4] [1; 0; 1; 0; 1; 1; 0; 0; 0]%nat).
  lia.
Defined.


(** * Further properties of the service *)

(** ** Reading back what was written *)



(** What a resolved [update] returned and stored. *)
Lemma update_resolved_row now i dto r p' r' :
  well_formed r →
  ProductsService.update now i dto r = (Resolved p', r') →
  ∃ p, rows r !! i = Some p
       ∧ UpdateProductDto.version dto = Product.version p
       ∧ fits_columns (UpdateProductDto.name dto) (UpdateProductDto.price dto)
           (UpdateProductDto.stock dto) = true
       ∧ ((sends_stored dto p = true ∧ p' = p ∧ r' = r)
          ∨ (sends_stored dto p = false
             ∧ p' = Repo.updated now p (updating dto p)
             ∧ r' = {| rows := <[i := stored_form p']> (rows r);
                       next_id := next_id r |})).
Proof.
  intros Hwf Hup.
  destruct (update_cases now i dto r Hwf)
    as [(_ & _ & He)|[(_ & _ & He)|[(p & _ & _ & He)|[(p & Hp & Hv & Hsame & _ & He)|
        [(p & _ & _ & _ & _ & He)|(p & Hp & Hv & Hsame & Hfit & He)]]]]];
    rewrite He in Hup; try discriminate Hup; injection Hup as <- <-;
    exists p; split; [done| |done|]; (split; [done|]).
  - split; [|by left].
    by apply (sends_stored_fits dto i p (well_formed_row r i p Hwf Hp)).
  - split; [done|]. by right.
Qed.



(** ** Outcomes of update *)



(** X4. Two writes derived from the same read: once [update] has resolved
    for a version and changed the repository, every later [update] of that
    id sending the same version rejects with a conflict and changes
    nothing. *)
Theorem second_write_same_version_rejected now i dto r p' r' now2 dto2 :
  well_formed r →
  ProductsService.update now i dto r = (Resolved p', r') →
  r' ≠ r →
  UpdateProductDto.version dto2 = UpdateProductDto.version dto →
  ProductsService.update now2 i dto2 r'
  = (Rejected (ConflictException "Optimistic lock conflict: stale version"), r').
Proof.
  intros Hwf Hup Hchanged Hv2.
  destruct (update_resolved_row now i dto r p' r' Hwf Hup)
    as (p & Hp & Hv & _ & [(_ & _ & ->)|(_ & -> & ->)]); [done|].
  eapply update_stale; [simpl; apply lookup_insert_eq|]. simpl. lia.
Qed.

Lemma second_write_same_version_rejected_witness :
  ProductsService.update 300 1 (UpdateProductDto.mk "Other" (PriceNumber 9 0) 1 1)
    {| rows := {[ 1 := Product.mk 1 "LockDemo+" (PriceText 1201) 7 2 100 200 ]};
       next_id := 2 |}
  = (Rejected (ConflictException "Optimistic lock conflict: stale version"),
     {| rows := {[ 1 := Product.mk 1 "LockDemo+" (PriceText 1201) 7 2 100 200 ]};
        next_id := 2 |}).
Proof.
  apply (second_write_same_version_rejected 200 1
           (UpdateProductDto.mk "LockDemo+" (PriceNumber 12005 3) 7 1) demo_repository
           (Product.mk 1 "LockDemo+" (PriceNumber 12005 3) 7 2 100 200)
           {| rows := {[ 1 := Product.mk 1 "LockDemo+" (PriceText 1201) 7 2 100 200 ]};
              next_id := 2 |}
           300 (UpdateProductDto.mk "Other" (PriceNumber 9 0) 1 1)).
  - exact demo_repository_well_formed.
  - reflexivity.
  - intros Heq. discriminate (f_equal (λ x, Product.version <$> rows x !! 1) Heq).
  - reflexivity.
Defined.



(** X6. [update], resolved or rejected, touches at most the row of its id:
    the rows under every other id, the set of stored ids and the id sequence
    are as before. *)
Theorem update_touches_one_row now i dto r :
  well_formed r →
  next_id (ProductsService.update now i dto r).2 = next_id r
  ∧ dom (rows (ProductsService.update now i dto r).2) = dom (rows r)
  ∧ ∀ j, j ≠ i →
      rows (ProductsService.update now i dto r).2 !! j = rows r !! j.
Proof.
  intros Hwf.
  destruct (update_touches_cases now i dto r Hwf)
    as [->|(p0 & p1 & Hp0 & _ & _ & _ & _ & ->)]; [done|].
  simpl. split; [done|]. split.
  - apply dom_insert_lookup_L. by exists p0.
  - intros j Hj. by apply lookup_insert_ne.
Qed.

Lemma update_touches_one_row_witness :
  next_id (ProductsService.update 300 1
             (UpdateProductDto.mk "A" (PriceNumber 1 0) 1 1)
             (run_ops [OpCreate 150 demo_dto] demo_repository)).2
  = next_id (run_ops [OpCreate 150 demo_dto] demo_repository)
  ∧ dom (rows (ProductsService.update 300 1
                 (UpdateProductDto.mk "A" (PriceNumber 1 0) 1 1)
                 (run_ops [OpCreate 150 demo_dto] demo_repository)).2)
    = dom (rows (run_ops [OpCreate 150 demo_dto] demo_repository))
  ∧ ∀ j, j ≠ 1 →
      rows (ProductsService.update 300 1
              (UpdateProductDto.mk "A" (PriceNumber 1 0) 1 1)
              (run_ops [OpCreate 150 demo_dto] demo_repository)).2 !! j
      = rows (run_ops [OpCreate 150 demo_dto] demo_repository) !! j.
Proof.
  apply (update_touches_one_row 300 1 (UpdateProductDto.mk "A" (PriceNumber 1 0) 1 1)
           (run_ops [OpCreate 150 demo_dto] demo_repository)).
  apply well_formed_run_ops. exact demo_repository_well_formed.
Defined.

(** ** Listing *)

Lemma find_elem_of r p : p ∈ Repo.find r ↔ ∃ i, rows r !! i = Some p.
Proof.
  unfold Repo.find. rewrite list_elem_of_fmap. split.
  - intros ([i q] & -> & Hin). exists i. by apply elem_of_map_to_list.
  - intros [i Hi]. exists (i, p). split; [done|]. by apply elem_of_map_to_list.
Qed.

(** X7. [findAll] resolves, leaves the repository alone, and lists exactly
    the products [findOne] resolves with under some id. *)
Theorem findAll_lists_what_findOne_finds r :
  ∃ l, ProductsService.findAll r = (Resolved l, r)
       ∧ ∀ p, p ∈ l ↔ ∃ i, ProductsService.findOne i r = (Resolved p, r).
Proof.
  exists (Repo.find r). split; [done|]. intros p. rewrite find_elem_of.
  split; intros [i Hi]; exists i.
  - by apply findOne_present.
  - destruct (rows r !! i) as [q|] eqn:Hq.
    + rewrite (findOne_present i r q Hq) in Hi. congruence.
    + destruct (in_int i) eqn:Hin.
      * rewrite (findOne_missing i r Hq Hin) in Hi. discriminate Hi.
      * rewrite (findOne_refused i r Hq Hin) in Hi. discriminate Hi.
Qed.



(** ** Versions along histories *)

(** The row of id [i] after one call: when the call changed it, its version
    has grown by one; otherwise it is the same row. *)
Lemma run_op_row r o i p :
  well_formed r →
  rows r !! i = Some p →
  ∃ p', rows (run_op r o) !! i = Some p'
        ∧ Product.version p'
          = Product.version p + (if writes_row i r o then 1 else 0)
        ∧ (writes_row i r o = false → p' = p).
Proof.
  intros Hwf Hp. unfold writes_row.
  assert (run_op r o = r
          ∨ (∃ j p1, j ≠ i ∧ rows (run_op r o) = <[j := p1]> (rows r))
          ∨ (∃ p1, Product.version p1 = Product.version p + 1
                   ∧ rows (run_op r o) = <[i := p1]> (rows r))) as Hcases.
  { destruct o as [now dto|now j dto|now j q]; unfold run_op.
    - destruct (create_touches_cases now dto r) as [He|(_ & _ & He)]; rewrite He;
        [by left|].
      right; left. eexists _, _. split; [|reflexivity].
      intros Heq. rewrite <- Heq, well_formed_next_id_free in Hp; done.
    - destruct (update_touches_cases now j dto r Hwf)
        as [->|(p0 & p1 & Hp0 & _ & _ & Hv & _ & ->)]; [by left|].
      right. destruct (decide (j = i)) as [->|Hji].
      + right. exists p1. split; [|done]. congruence.
      + left. by exists j, p1.
    - destruct (purchase_touches_cases now j q r Hwf)
        as [->|(p0 & p1 & Hp0 & _ & _ & Hv & _ & _ & ->)]; [by left|].
      right. destruct (decide (j = i)) as [->|Hji].
      + right. exists p1. split; [|done]. congruence.
      + left. by exists j, p1. }
  destruct Hcases as [->|[(j & p1 & Hji & ->)|(p1 & Hv & ->)]].
  - exists p. rewrite bool_decide_eq_false_2 by (intros H; by apply H).
    split; [done|]. split; [lia|done].
  - rewrite lookup_insert_ne by done. exists p.
    rewrite bool_decide_eq_false_2 by (intros H; by apply H).
    split; [done|]. split; [lia|done].
  - rewrite lookup_insert_eq. exists p1.
    rewrite bool_decide_eq_true_2.
    + split; [done|]. split; [done|]. intros Hf. discriminate Hf.
    + rewrite Hp. intros [= ->]. lia.
Qed.

(** A row that appears with a call was inserted by it, with the initial
    version. *)
Lemma run_op_new_row r o i p' :
  well_formed r →
  rows r !! i = None →
  rows (run_op r o) !! i = Some p' →
  Product.version p' = initial_version.
Proof.
  intros Hwf Hnone.
  destruct o as [now dto|now j dto|now j q]; unfold run_op.
  - destruct (create_touches_cases now dto r) as [He|(_ & _ & He)]; rewrite He;
      [simpl; congruence|].
    simpl. rewrite lookup_insert. case_decide.
    + by intros [= <-].
    + congruence.
  - destruct (update_touches_cases now j dto r Hwf)
      as [->|(p0 & p1 & Hp0 & _ & _ & _ & _ & ->)]; [congruence|].
    simpl. rewrite lookup_insert. case_decide; congruence.
  - destruct (purchase_touches_cases now j q r Hwf)
      as [->|(p0 & p1 & Hp0 & _ & _ & _ & _ & _ & ->)]; [congruence|].
    simpl. rewrite lookup_insert. case_decide; congruence.
Qed.

Lemma writes_nonneg i ops r : 0 ≤ writes i ops r.
Proof.
  revert r. induction ops as [|o ops IH]; intros r; simpl; [done|].
  specialize (IH (run_op r o)). destruct (writes_row i r o); lia.
Qed.

Lemma history_row ops r i p :
  well_formed r →
  rows r !! i = Some p →
  ∃ p', rows (run_ops ops r) !! i = Some p'
        ∧ Product.version p' = Product.version p + writes i ops r
        ∧ (writes i ops r = 0 → p' = p).
Proof.
  revert r p. induction ops as [|o ops IH]; intros r p Hwf Hp; simpl.
  - exists p. split; [done|]. split; [lia|done].
  - destruct (run_op_row r o i p Hwf Hp) as (p1 & Hp1 & Hv1 & Hsame1).
    destruct (IH (run_op r o) p1 (well_formed_run_op _ _ Hwf) Hp1)
      as (p2 & Hp2 & Hv2 & Hsame2).
    exists p2. split; [done|]. split; [lia|].
    pose proof (writes_nonneg i ops (run_op r o)).
    destruct (writes_row i r o); intros Hz; [lia|].
    rewrite Hsame2 by lia. by apply Hsame1.
Qed.

Lemma versions_from_initial_run_ops ops r :
  well_formed r → versions_from_initial r →
  versions_from_initial (run_ops ops r).
Proof.
  revert r. induction ops as [|o ops IH]; intros r Hwf Hv; simpl; [done|].
  apply IH; [by apply well_formed_run_op|].
  intros i p' Hp'. destruct (rows r !! i) as [p|] eqn:Hp.
  - destruct (run_op_row r o i p Hwf Hp) as (p1 & Hp1 & Hv1 & _).
    assert (p1 = p') by congruence. subst p1.
    specialize (Hv i p Hp). destruct (writes_row i r o); lia.
  - rewrite (run_op_new_row r o i p' Hwf Hp Hp'). lia.
Qed.

Lemma reachable_versions r : reachable r → versions_from_initial r.
Proof.
  intros [ops ->]. apply versions_from_initial_run_ops; [apply well_formed_empty|].
  intros i p Hp. simpl in Hp. by rewrite lookup_empty in Hp.
Qed.

(** X10. In every repository reachable by creations, updates and purchases,
    every stored product has a version of at least 1. *)
Theorem reachable_version_at_least_one r i p :
  reachable r → rows r !! i = Some p → 1 ≤ Product.version p.
Proof. intros Hr Hp. by apply (reachable_versions r Hr i p). Qed.

Lemma reachable_version_at_least_one_witness :
  1 ≤ Product.version (Product.mk 1 "LockDemo" (PriceText 1000) (-1) 2 100 200).
Proof.
  apply (reachable_version_at_least_one
           (run_ops negative_stock_history empty_repository) 1).
  - by exists negative_stock_history.
  - reflexivity.
Defined.

(** X11. Along any history, the version of a stored product grows by exactly
    the number of calls that changed its row: every call that changes the
    row raises the version by one, a call that resolves without changing it
    does not; and when no call changed the row, the product is stored as it
    was. *)
Theorem version_counts_writes ops r i p :
  well_formed r →
  rows r !! i = Some p →
  ∃ p', rows (run_ops ops r) !! i = Some p'
        ∧ Product.version p' = Product.version p + writes i ops r
        ∧ 0 ≤ writes i ops r
        ∧ (writes i ops r = 0 → p' = p).
Proof.
  intros Hwf Hp. destruct (history_row ops r i p Hwf Hp) as (p' & Hp' & Hv & Hsame).
  exists p'. pose proof (writes_nonneg i ops r). done.
Qed.

Lemma version_counts_writes_witness :
  ∃ p', rows (run_ops demo_history demo_repository) !! 1 = Some p'
        ∧ Product.version p'
          = Product.version demo_product + writes 1 demo_history demo_repository
        ∧ 0 ≤ writes 1 demo_history demo_repository
        ∧ (writes 1 demo_history demo_repository = 0 → p' = demo_product).
Proof.
  apply (version_counts_writes demo_history demo_repository 1 demo_product).
  - exact demo_repository_well_formed.
  - reflexivity.
Defined.

(** In the demo history the second update and the purchase of 2 change the
    row; an update that repeats what is stored resolves and does not. *)
Example demo_history_writes : writes 1 demo_history demo_repository = 2.
Proof. reflexivity. Qed.

Example repeated_body_is_no_write :
  writes 1 [OpUpdate 200 1 (UpdateProductDto.mk "LockDemo" (PriceText 1000) 5 1)]
    demo_repository = 0.
Proof. reflexivity. Qed.



(** ** The stale update of the demo *)

(** X13. Step 2 of the demo: for a product stored in a reachable repository
    and read by the script with its version, or with no version at all, the
    update sent with [(fresh.version ?? 1) - 1] rejects with a conflict and
    leaves the repository as it was. *)
Theorem demo_stale_update_rejected now r p fresh :
  reachable r →
  rows r !! Demo.id fresh = Some p →
  Demo.version fresh = Some (Product.version p) ∨ Demo.version fresh = None →
  ∃ e, Demo.staleUpdate now fresh r = (Rejected e, r)
       ∧ kind_of e = ConflictError.
Proof.
  intros Hr Hp Hver. pose proof (reachable_versions r Hr _ p Hp) as Hv1.
  unfold initial_version in Hv1.
  exists (ConflictException "Optimistic lock conflict: stale version").
  split; [|done].
  unfold Demo.staleUpdate. apply (update_stale now _ r _ p Hp). simpl.
  unfold Demo.staleVersion. destruct Hver as [-> | ->]; simpl; lia.
Qed.

Lemma demo_stale_update_rejected_witness :
  ∃ e, Demo.staleUpdate 200 (Demo.of_entity demo_product) demo_repository
       = (Rejected e, demo_repository)
       ∧ kind_of e = ConflictError.
Proof.
  apply (demo_stale_update_rejected 200 demo_repository demo_product
           (Demo.of_entity demo_product)).
  - exact demo_repository_reachable.
  - reflexivity.
  - left. reflexivity.
Defined.

(** * Further properties of concurrent purchases *)

Section LockedPurchaseOutcomes.

Import LockedPurchase.

Variables (S V : Z) (qs : list Z).

Lemma justified_mono st st' c :
  stock st' ≤ stock st → justified st c → justified st' c.
Proof. intros Hle. destruct c as [| | | | |q []]; simpl; lia || done. Qed.

Lemma justified_step st i st' :
  invariant S V qs st →
  (∀ j c, calls st !! j = Some c → justified st c) →
  step i st = Some st' →
  ∀ j c, calls st' !! j = Some c → justified st' c.
Proof.
  intros Hinv Hjust Hstep. unfold step in Hstep.
  destruct (calls st !! i) as [ci|] eqn:Hci; [|done].
  pose proof (lookup_lt_Some _ _ _ Hci) as Hlen.
  pose proof (inv_started _ _ _ _ Hinv i ci Hci) as Hsi.
  assert (∀ c' s' v' l',
            stock {| stock := s'; version := v'; lock := l';
                     calls := <[i := c']> (calls st) |} ≤ stock st →
            justified {| stock := s'; version := v'; lock := l';
                         calls := <[i := c']> (calls st) |} c' →
            ∀ j c, <[i := c']> (calls st) !! j = Some c →
                   justified {| stock := s'; version := v'; lock := l';
                                calls := <[i := c']> (calls st) |} c) as Hgen.
  { intros c' s' v' l' Hle Hc' j c. destruct (decide (i = j)) as [<-|Hij].
    - rewrite list_lookup_insert_eq by done. by intros [= <-].
    - rewrite list_lookup_insert_ne by done. intros Hc.
      eapply justified_mono; [exact Hle|]. by eapply Hjust. }
  destruct ci as [q|q|q seen|q|q|q e]; simpl in *; try done.
  - destruct (q <=? 0) eqn:Hq.
    + injection Hstep as <-. unfold set_call. apply Hgen; simpl; [lia|].
      by apply Z.leb_le.
    + destruct (lock st); [done|]. injection Hstep as <-.
      apply Hgen; simpl; [lia|done].
  - injection Hstep as <-. unfold set_call. apply Hgen; simpl; [lia|done].
  - pose proof (inv_read _ _ _ _ Hinv i q seen Hci) as Hseen.
    destruct (seen <? q) eqn:Hlt.
    + injection Hstep as <-. apply Hgen; simpl; [lia|].
      apply Z.ltb_lt in Hlt. lia.
    + injection Hstep as <-. apply Hgen; simpl; [|done].
      specialize (Hsi eq_refl). lia.
  - injection Hstep as <-. apply Hgen; simpl; [lia|]. by apply Hsi.
Qed.

Lemma justified_run sched st :
  invariant S V qs st →
  (∀ j c, calls st !! j = Some c → justified st c) →
  ∀ j c, calls (run sched st) !! j = Some c → justified (run sched st) c.
Proof.
  revert st. induction sched as [|i sched IH]; intros st Hinv Hjust; simpl; [done|].
  apply IH; [by apply invariant_turn|].
  unfold turn. destruct (step i st) as [st'|] eqn:Hstep; simpl; [|done].
  by eapply justified_step.
Qed.

Lemma justified_init j c : calls (init S V qs) !! j = Some c → justified (init S V qs) c.
Proof.
  simpl. rewrite list_lookup_fmap. destruct (qs !! j); simpl; [|done].
  by intros [= <-].
Qed.

(** X14. At no point of any schedule do two calls hold the row lock: calls
    that are between acquiring the lock and their commit or rollback are one
    and the same call. *)
Theorem lock_is_exclusive (sched : list nat) (i j : nat) (ci cj : Call) :
  0 ≤ S →
  calls (run sched (init S V qs)) !! i = Some ci →
  calls (run sched (init S V qs)) !! j = Some cj →
  holds_lock ci = true →
  holds_lock cj = true →
  i = j.
Proof.
  intros HS Hi Hj Hli Hlj.
  pose proof (invariant_run S V qs sched _ (invariant_init S V qs HS)) as Hinv.
  apply (inv_lock _ _ _ _ Hinv) in Hi, Hj.
  apply Hi in Hli. apply Hj in Hlj. congruence.
Qed.

End LockedPurchaseOutcomes.

Lemma lock_is_exclusive_witness : 1%nat = 1%nat.
Proof.
  apply (lock_is_exclusive 5 1 [2; 4] [1; 0; 1]%nat 1 1
           (LockedPurchase.Read 4 5) (LockedPurchase.Read 4 5)).
  - lia.
  - reflexivity.
  - reflexivity.
  - reflexivity.
  - reflexivity.
Defined.

(** X16. Two concurrent purchases against one row, each within the stock but
    not both together: under every schedule that settles both, exactly one
    commits and the other fails with a conflict; the stock left is the
    initial stock minus the committed quantity and the version has grown by
    one. *)
Theorem one_of_two_purchases_commits (S V q1 q2 : Z) (sched : list nat) :
  0 < q1 ≤ S →
  0 < q2 ≤ S →
  S < q1 + q2 →
  LockedPurchase.all_settled
    (LockedPurchase.run sched (LockedPurchase.init S V [q1; q2])) = true →
  (LockedPurchase.calls (LockedPurchase.run sched (LockedPurchase.init S V [q1; q2]))
   = [LockedPurchase.Succeeded q1; LockedPurchase.Failed q2 ConflictError]
   ∧ LockedPurchase.stock
       (LockedPurchase.run sched (LockedPurchase.init S V [q1; q2])) = S - q1
   ∧ LockedPurchase.version
       (LockedPurchase.run sched (LockedPurchase.init S V [q1; q2])) = V + 1)
  ∨ (LockedPurchase.calls (LockedPurchase.run sched (LockedPurchase.init S V [q1; q2]))
     = [LockedPurchase.Failed q1 ConflictError; LockedPurchase.Succeeded q2]
     ∧ LockedPurchase.stock
         (LockedPurchase.run sched (LockedPurchase.init S V [q1; q2])) = S - q2
     ∧ LockedPurchase.version
         (LockedPurchase.run sched (LockedPurchase.init S V [q1; q2])) = V + 1).
Proof.
  intros Hq1 Hq2 Hsum Hall.
  assert (0 ≤ S) as HS by lia.
  pose proof (invariant_run S V [q1; q2] sched _ (invariant_init S V [q1; q2] HS)) as Hinv.
  pose proof (justified_run S V [q1; q2] sched _
                (invariant_init S V [q1; q2] HS) (justified_init S V [q1; q2])) as Hjust.
  set (st := LockedPurchase.run sched (LockedPurchase.init S V [q1; q2])) in *.
  destruct Hinv as [Hqs Hst Hver Hnn _ _ _].
  unfold LockedPurchase.all_settled in Hall.
  destruct (LockedPurchase.calls st) as [|c1 [|c2 [|c3 l]]] eqn:Hcalls;
    try discriminate Hqs.
  injection Hqs as Hc1 Hc2.
  pose proof (Hjust 0%nat c1 eq_refl) as Hj1.
  pose proof (Hjust 1%nat c2 eq_refl) as Hj2.
  simpl in Hall, Hst, Hver.
  destruct c1 as [| | | |a|a [| | |]], c2 as [| | | |b|b [| | |]];
    simpl in *; try discriminate Hall; subst; try lia; try done.
  - left. split; [done|]. split; lia.
  - right. split; [done|]. split; lia.
Qed.

Lemma one_of_two_purchases_commits_witness :
  (LockedPurchase.calls
     (LockedPurchase.run [1; 0; 1; 0; 1; 1; 0; 0; 0]%nat (LockedPurchase.init 5 1 [2; 4]))
   = [LockedPurchase.Succeeded 2; LockedPurchase.Failed 4 ConflictError]
   ∧ LockedPurchase.stock
       (LockedPurchase.run [1; 0; 1; 0; 1; 1; 0; 0; 0]%nat
          (LockedPurchase.init 5 1 [2; 4])) = 5 - 2
   ∧ LockedPurchase.version
       (LockedPurchase.run [1; 0; 1; 0; 1; 1; 0; 0; 0]%nat
          (LockedPurchase.init 5 1 [2; 4])) = 1 + 1)
  ∨ (LockedPurchase.calls
       (LockedPurchase.run [1; 0; 1; 0; 1; 1; 0; 0; 0]%nat
          (LockedPurchase.init 5 1 [2; 4]))
     = [LockedPurchase.Failed 2 ConflictError; LockedPurchase.Succeeded 4]
     ∧ LockedPurchase.stock
         (LockedPurchase.run [1; 0; 1; 0; 1; 1; 0; 0; 0]%nat
            (LockedPurchase.init 5 1 [2; 4])) = 5 - 4
     ∧ LockedPurchase.version
         (LockedPurchase.run [1; 0; 1; 0; 1; 1; 0; 0; 0]%nat
            (LockedPurchase.init 5 1 [2; 4])) = 1 + 1).
Proof.
  apply (one_of_two_purchases_commits 5 1 2 4 [1; 0; 1; 0; 1; 1; 0; 0; 0]%nat).
  - lia.
  - lia.
  - lia.
  - reflexivity.
Defined.
